(** * Verification of store.go (package credentials)

    A shallow embedding of the credential store resolution layer:
    the [Store] interface, the [dynamicStore] returned by [NewStore]
    and the [storeWithFallbacks] composite returned by
    [NewStoreWithFallbacks].

    Go methods with side effects become functions in a small
    state-and-panic monad; interface values become records of closures;
    collaborators that live in other packages (the config object, the
    native helper programs, the plaintext file store) are parameters of
    the development. *)

From Stdlib Require Import String List Bool Arith Lia.
Import ListNotations.
Open Scope string_scope.

Set Implicit Arguments.

(** ** Values of the Go world *)

(** Go's [error] interface. A collaborator reports a failure as some
    error value; [fmt.Errorf("...: %w", err)] builds a new error that
    wraps [err] behind a context message. *)
Inductive error : Type :=
| errorString (msg : string)
| wrapError (msg : string) (err : error).

(** [fmt.Errorf(msg ++ ": %w", err)]. *)
Definition Errorf_w (msg : string) (err : error) : error := wrapError msg err.

(** [errors.Unwrap]. *)
Definition Unwrap (e : error) : option error :=
  match e with
  | errorString _ => None
  | wrapError _ err => Some err
  end.

(** [auth.Credential] of oras-go: a struct of four strings, compared
    with [==] / [!=] field by field. *)
Record Credential : Type := mkCredential {
  Username : string;
  Password : string;
  RefreshToken : string;
  AccessToken : string
}.

(** [auth.EmptyCredential]: the zero value of the struct. *)
Definition EmptyCredential : Credential := mkCredential EmptyString EmptyString EmptyString EmptyString.

Definition Credential_eqb (a b : Credential) : bool :=
  String.eqb (Username a) (Username b)
  && String.eqb (Password a) (Password b)
  && String.eqb (RefreshToken a) (RefreshToken b)
  && String.eqb (AccessToken a) (AccessToken b).

(** [cred != auth.EmptyCredential] *)
Definition Credential_neq (a b : Credential) : bool := negb (Credential_eqb a b).

(** [s] is not the empty string. *)
Definition nonempty (s : string) : bool := negb (String.eqb s EmptyString).

(** ** The monad of Go method bodies

    A method runs against a world [W] and either returns a value
    together with the new world, or panics (the only panic the file can
    raise by itself is the slice index of [sf.stores[0]]). *)
Module Go.

Inductive outcome (W A : Type) : Type :=
| Ok (a : A) (w : W)
| Panic (msg : string).
Arguments Ok {W A} a w.
Arguments Panic {W A} msg.

Definition M (W A : Type) : Type := W -> outcome W A.

Definition ret {W A} (a : A) : M W A := fun w => Ok a w.

Definition bind {W A B} (m : M W A) (k : A -> M W B) : M W B :=
  fun w => match m w with
           | Ok a w' => k a w'
           | Panic msg => Panic msg
           end.

Definition panic {W A} (msg : string) : M W A := fun _ => Panic msg.

(** Lifting of a collaborator that cannot panic. *)
Definition lift {W A} (f : W -> A * W) : M W A :=
  fun w => let (a, w') := f w in Ok a w'.

Definition panics {W A} (o : outcome W A) : bool :=
  match o with Ok _ _ => false | Panic _ => true end.

End Go.

Import Go.

Declare Scope go_scope.
Delimit Scope go_scope with go.
Notation "x <- m ;; k" := (bind m (fun x => k))
  (at level 61, m at next level, right associativity) : go_scope.
Notation "' p <- m ;; k" := (bind m (fun p => k))
  (at level 61, p pattern, m at next level, right associativity) : go_scope.
Open Scope go_scope.

(** ** The Store interface *)

(** [type Store interface { Get; Put; Delete }]: an interface value is
    the record of its three methods, closed over the receiver. The
    [ctx] argument is only passed along and is left out. *)
Record Store (W : Type) : Type := mkStore {
  Get : string -> M W (Credential * option error);
  Put : string -> Credential -> M W (option error);
  Delete : string -> M W (option error)
}.

(** ** storeWithFallbacks *)
Section Fallbacks.

Variable W : Type.

(** [type storeWithFallbacks struct { stores []Store }] *)
Record storeWithFallbacks : Type := mkStoreWithFallbacks {
  stores : list (Store W)
}.

(** The [for _, s := range sf.stores] loop of [Get]. *)
Fixpoint Get_loop (ss : list (Store W)) (serverAddress : string)
  : M W (Credential * option error) :=
  match ss with
  | [] => ret (EmptyCredential, None)
  | s :: rest =>
      '(cred, err) <- Get s serverAddress ;;
      match err with
      | Some e => ret (EmptyCredential, Some e)
      | None =>
          if Credential_neq cred EmptyCredential
          then ret (cred, None)
          else Get_loop rest serverAddress
      end
  end.

Definition storeWithFallbacks_Get (sf : storeWithFallbacks)
  (serverAddress : string) : M W (Credential * option error) :=
  Get_loop (stores sf) serverAddress.

(** [sf.stores[0]]: indexing an empty slice panics. *)
Definition index0 (ss : list (Store W)) : M W (Store W) :=
  match nth_error ss 0 with
  | Some s => ret s
  | None => panic "index out of range [0] with length 0"
  end.

Definition storeWithFallbacks_Put (sf : storeWithFallbacks)
  (serverAddress : string) (cred : Credential) : M W (option error) :=
  s <- index0 (stores sf) ;; Put s serverAddress cred.

Definition storeWithFallbacks_Delete (sf : storeWithFallbacks)
  (serverAddress : string) : M W (option error) :=
  s <- index0 (stores sf) ;; Delete s serverAddress.

(** [*storeWithFallbacks] seen through the [Store] interface. *)
Definition storeWithFallbacks_Store (sf : storeWithFallbacks) : Store W :=
  {| Get := storeWithFallbacks_Get sf;
     Put := storeWithFallbacks_Put sf;
     Delete := storeWithFallbacks_Delete sf |}.

(** [func NewStoreWithFallbacks(primary Store, fallbacks ...Store) Store] *)
Definition NewStoreWithFallbacks (primary : Store W)
  (fallbacks : list (Store W)) : Store W :=
  if Nat.eqb (length fallbacks) 0 then primary
  else storeWithFallbacks_Store
         {| stores := [primary] ++ fallbacks |}.

(** [misses a ss w w']: called in order from world [w], every store of
    [ss] answers [Get a] with the empty credential and no error, and
    the calls leave the world [w']. *)
Inductive misses (a : string) : list (Store W) -> W -> W -> Prop :=
| misses_nil : forall w, misses a [] w w
| misses_cons : forall s ss w w1 w2,
    Get s a w = Ok (EmptyCredential, None) w1 ->
    misses a ss w1 w2 ->
    misses a (s :: ss) w w2.

End Fallbacks.

Arguments misses {W} a _ _ _.
Arguments index0 {W} ss _.

(** A caller of a [Store]: one request per method. *)
Inductive Op : Type :=
| OpGet (serverAddress : string)
| OpPut (serverAddress : string) (cred : Credential)
| OpDelete (serverAddress : string).

Inductive Reply : Type :=
| ReplyGet (cred : Credential) (err : option error)
| ReplyPut (err : option error)
| ReplyDelete (err : option error).

Definition exec {W} (s : Store W) (op : Op) : M W Reply :=
  match op with
  | OpGet a => '(cred, err) <- Get s a ;; ret (ReplyGet cred err)
  | OpPut a c => err <- Put s a c ;; ret (ReplyPut err)
  | OpDelete a => err <- Delete s a ;; ret (ReplyDelete err)
  end.

(** A caller issuing the requests [ops] one after the other. *)
Fixpoint run {W} (s : Store W) (ops : list Op) : M W (list Reply) :=
  match ops with
  | [] => ret []
  | op :: rest => r <- exec s op ;; rs <- run s rest ;; ret (r :: rs)
  end.

(** ** Collaborators of dynamicStore

    The config object ([internal/config]), the native helper programs
    and the plaintext file store live in other files. They are taken as
    parameters: [Config] is the state of the [*config.Config] object
    (what it holds in memory and has saved), [Helpers] the state of the
    helper programs and of the platform. *)

(** [newFileStore(cfg)] returns a [*FileStore] on the config with the
    exported field [DisablePut]. *)
Record FileStore : Type := mkFileStore {
  DisablePut : bool
}.

Class Externals (Config Helpers : Type) : Type := {
  (** [config.Load(configPath)] *)
  Load : string -> Config + error;
  (** [cfg.GetCredentialHelper(serverAddress)] *)
  GetCredentialHelper : Config -> string -> string;
  (** [cfg.CredentialsStore()] *)
  CredentialsStore : Config -> string;
  (** [cfg.IsAuthConfigured()] *)
  IsAuthConfigured : Config -> bool;
  (** [cfg.SetCredentialsStore(credsStore)] *)
  SetCredentialsStore : Config -> string -> option error * Config;
  (** the methods of [*FileStore] *)
  FileStore_Get : FileStore -> string -> Config ->
                  (Credential * option error) * Config;
  FileStore_Put : FileStore -> string -> Credential -> Config ->
                  option error * Config;
  FileStore_Delete : FileStore -> string -> Config -> option error * Config;
  (** the methods of the store returned by [NewNativeStore(helper)] *)
  nativeStore_Get : string -> string -> Helpers ->
                    (Credential * option error) * Helpers;
  nativeStore_Put : string -> string -> Credential -> Helpers ->
                    option error * Helpers;
  nativeStore_Delete : string -> string -> Helpers -> option error * Helpers;
  (** [getDefaultHelperSuffix()] *)
  getDefaultHelperSuffix : Helpers -> string
}.

Inductive Method : Type := MGet | MPut | MDelete.

(** Calls that leave store.go, recorded in the order they are made. *)
Inductive Call : Type :=
| CallSetCredentialsStore (credsStore : string)
| CallNative (helper : string) (m : Method) (serverAddress : string)
| CallFile (disablePut : bool) (m : Method) (serverAddress : string).

Definition isSetCredentialsStore (c : Call) : bool :=
  match c with CallSetCredentialsStore _ => true | _ => false end.

(** ** dynamicStore *)
Section Dynamic.

Context {Config Helpers : Type} `{!Externals Config Helpers}.

(** What the methods of one [*dynamicStore] run against: the config
    object its [config] field points to, the helper programs, the
    [done] flag of its [setCredsStoreOnce], and the record of the
    calls made so far. *)
Record World : Type := mkWorld {
  w_config : Config;
  w_helpers : Helpers;
  w_setCredsStoreOnce : bool;
  w_calls : list Call
}.

Definition with_config (c : Config) (w : World) : World :=
  mkWorld c (w_helpers w) (w_setCredsStoreOnce w) (w_calls w).
Definition with_helpers (h : Helpers) (w : World) : World :=
  mkWorld (w_config w) h (w_setCredsStoreOnce w) (w_calls w).
Definition with_once (b : bool) (w : World) : World :=
  mkWorld (w_config w) (w_helpers w) b (w_calls w).
Definition record_call (c : Call) (w : World) : World :=
  mkWorld (w_config w) (w_helpers w) (w_setCredsStoreOnce w)
          (w_calls w ++ [c]).

(** Number of times [SetCredentialsStore] has been called. *)
Definition setCredsStore_count (w : World) : nat :=
  length (filter isSetCredentialsStore (w_calls w)).

(** A method of the config object, run in the world. *)
Definition on_config {A} (c : Call) (f : Config -> A * Config)
  : M World A :=
  lift (fun w => let (a, cfg) := f (w_config w) in
                 (a, with_config cfg (record_call c w))).

(** A helper program, run in the world. *)
Definition on_helpers {A} (c : Call) (f : Helpers -> A * Helpers)
  : M World A :=
  lift (fun w => let (a, h) := f (w_helpers w) in
                 (a, with_helpers h (record_call c w))).

(** [NewNativeStore(helperSuffix)] *)
Definition NewNativeStore (helperSuffix : string) : Store World :=
  {| Get := fun a =>
       on_helpers (CallNative helperSuffix MGet a)
                  (nativeStore_Get helperSuffix a);
     Put := fun a cred =>
       on_helpers (CallNative helperSuffix MPut a)
                  (nativeStore_Put helperSuffix a cred);
     Delete := fun a =>
       on_helpers (CallNative helperSuffix MDelete a)
                  (nativeStore_Delete helperSuffix a) |}.

(** [newFileStore(cfg)]: [DisablePut] starts as the zero value. *)
Definition newFileStore : FileStore := {| DisablePut := false |}.

(** [fs.DisablePut = b] *)
Definition set_DisablePut (b : bool) (fs : FileStore) : FileStore :=
  {| DisablePut := b |}.

(** [*FileStore] seen through the [Store] interface. *)
Definition FileStore_Store (fs : FileStore) : Store World :=
  {| Get := fun a =>
       on_config (CallFile (DisablePut fs) MGet a) (FileStore_Get fs a);
     Put := fun a cred =>
       on_config (CallFile (DisablePut fs) MPut a) (FileStore_Put fs a cred);
     Delete := fun a =>
       on_config (CallFile (DisablePut fs) MDelete a)
                 (FileStore_Delete fs a) |}.

(** [type StoreOptions struct { AllowPlaintextPut bool }] *)
Record StoreOptions : Type := mkStoreOptions {
  AllowPlaintextPut : bool
}.

(** [type dynamicStore struct]: the fields [config] (a pointer) and
    [setCredsStoreOnce] (mutable) are held by the [World]. *)
Record dynamicStore : Type := mkDynamicStore {
  options : StoreOptions;
  detectedCredsStore : string
}.

(** [func (ds *dynamicStore) getHelperSuffix(serverAddress string) string] *)
Definition getHelperSuffix (ds : dynamicStore) (serverAddress : string)
  (w : World) : string :=
  let helper := GetCredentialHelper (w_config w) serverAddress in
  if nonempty helper then helper
  else
    let credsStore := CredentialsStore (w_config w) in
    if nonempty credsStore then credsStore
    else detectedCredsStore ds.

(** [func (ds *dynamicStore) getStore(serverAddress string) Store] *)
Definition getStore (ds : dynamicStore) (serverAddress : string)
  (w : World) : Store World :=
  let helper := getHelperSuffix ds serverAddress w in
  if nonempty helper then NewNativeStore helper
  else
    let fs := newFileStore in
    let fs := set_DisablePut (negb (AllowPlaintextPut (options ds))) fs in
    FileStore_Store fs.

(** Reading the world without changing it. *)
Definition gets {A} (f : World -> A) : M World A := fun w => Ok (f w) w.

(** [ds.getStore(serverAddress).Get(ctx, serverAddress)] *)
Definition dynamicStore_Get (ds : dynamicStore) (serverAddress : string)
  : M World (Credential * option error) :=
  s <- gets (getStore ds serverAddress) ;; Get s serverAddress.

(** [sync.Once.Do(f)] for a single caller at a time: [f] runs when
    [done] is not set, and [done] is set when [f] has returned. The
    argument of [f] stands for the variables the closure captures. *)
Definition Once_Do {A} (f : A -> M World A) (captured : A) : M World A :=
  fun w =>
    if w_setCredsStoreOnce w then Ok captured w
    else match f captured w with
         | Ok a w' => Ok a (with_once true w')
         | Panic msg => Panic msg
         end.

(** The closure passed to [ds.setCredsStoreOnce.Do] in [Put]; it
    captures the named result [returnErr]. *)
Definition setCredsStore_func (ds : dynamicStore)
  (returnErr : option error) : M World (option error) :=
  if nonempty (detectedCredsStore ds) then
    err <- on_config (CallSetCredentialsStore (detectedCredsStore ds))
                     (fun cfg => SetCredentialsStore cfg
                                   (detectedCredsStore ds)) ;;
    match err with
    | Some e => ret (Some (Errorf_w "failed to set credsStore" e))
    | None => ret returnErr
    end
  else ret returnErr.

(** [func (ds *dynamicStore) Put(...) (returnErr error)] *)
Definition dynamicStore_Put (ds : dynamicStore) (serverAddress : string)
  (cred : Credential) : M World (option error) :=
  err <- (s <- gets (getStore ds serverAddress) ;;
          Put s serverAddress cred) ;;
  match err with
  | Some e => ret (Some e)
  | None => Once_Do (setCredsStore_func ds) None
  end.

(** [func (ds *dynamicStore) Delete(...) error] *)
Definition dynamicStore_Delete (ds : dynamicStore) (serverAddress : string)
  : M World (option error) :=
  s <- gets (getStore ds serverAddress) ;; Delete s serverAddress.

(** [*dynamicStore] seen through the [Store] interface. *)
Definition dynamicStore_Store (ds : dynamicStore) : Store World :=
  {| Get := dynamicStore_Get ds;
     Put := dynamicStore_Put ds;
     Delete := dynamicStore_Delete ds |}.

(** [func NewStore(configPath string, opts StoreOptions) (Store, error)].
    On success the new [*dynamicStore] comes with the world its
    methods start in: the loaded config, a fresh [sync.Once] and no
    call made yet. *)
Definition NewStore (configPath : string) (opts : StoreOptions)
  (platform : Helpers) : (dynamicStore * World) + error :=
  match Load configPath with
  | inr err => inr err
  | inl cfg =>
      let ds := {| options := opts; detectedCredsStore := EmptyString |} in
      let ds :=
        if negb (IsAuthConfigured cfg)
        then {| options := options ds;
                detectedCredsStore := getDefaultHelperSuffix platform |}
        else ds in
      inl (ds, mkWorld cfg platform false [])
  end.

End Dynamic.

Arguments World : clear implicits.

(** ** The selection rule as the specification words it

    Four steps in strict priority order, as a pure function of the
    per-address helper, the global helper, the detected default and the
    [allowPlaintextPut] option. *)
Inductive Backend : Type :=
| NativeHelper (name : string)
| PlaintextFile (disablePut : bool).

Definition spec_select (perAddress global detected : string)
  (allowPlaintextPut : bool) : Backend :=
  if nonempty perAddress then NativeHelper perAddress
  else if nonempty global then NativeHelper global
  else if nonempty detected then NativeHelper detected
  else PlaintextFile (negb allowPlaintextPut).

Definition backend_call (b : Backend) (m : Method) (a : string) : Call :=
  match b with
  | NativeHelper name => CallNative name m a
  | PlaintextFile d => CallFile d m a
  end.

Definition Op_address (op : Op) : string :=
  match op with OpGet a | OpPut a _ | OpDelete a => a end.

Definition Op_method (op : Op) : Method :=
  match op with OpGet _ => MGet | OpPut _ _ => MPut | OpDelete _ => MDelete end.

Section Selection.

Context {Config Helpers : Type} `{!Externals Config Helpers}.

Definition backend_Store (b : Backend) : Store (World Config Helpers) :=
  match b with
  | NativeHelper name => NewNativeStore name
  | PlaintextFile d => FileStore_Store {| DisablePut := d |}
  end.

(** The backend the specification selects for [a] in world [w]. *)
Definition selected (ds : dynamicStore) (a : string)
  (w : World Config Helpers) : Backend :=
  spec_select (GetCredentialHelper (w_config w) a)
              (CredentialsStore (w_config w))
              (detectedCredsStore ds)
              (AllowPlaintextPut (options ds)).

(** [after c w w']: [w'] is [w] after the one call [c] to a backend:
    the call is recorded, the Once is untouched. *)
Definition after (c : Call) (w w' : World Config Helpers) : Prop :=
  w_calls w' = (w_calls w ++ [c])%list
  /\ w_setCredsStoreOnce w' = w_setCredsStoreOnce w.

(** What is left of the single persist: calls made so far plus one
    if the Once has not fired. *)
Definition budget (w : World Config Helpers) : nat :=
  setCredsStore_count w + (if w_setCredsStoreOnce w then 0 else 1).

End Selection.

(** ** Concurrent callers of Put

    Goroutines that each run [ds.Put(ctx, addr, cred)] on one
    [*dynamicStore], interleaved by a scheduler. The delegated backend
    call and the body of the closure are single steps; [sync.Once.Do]
    is split along its implementation in Go's [sync] package:

      Do:     if o.done.Load() == 0 { o.doSlow(f) }
      doSlow: o.m.Lock(); defer o.m.Unlock()
              if o.done.Load() == 0 { defer o.done.Store(1); f() } *)
Inductive pc : Type :=
| AtPut                                  (* before the backend Put *)
| ReturnedEarly (err : error)            (* [return err] of the backend *)
| AtDo                                   (* before [o.done.Load()] in Do *)
| AtLock                                 (* before [o.m.Lock()] *)
| Locked                                 (* before [o.done.Load()] in doSlow *)
| AtFunc                                 (* before [f()] *)
| AtStoreDone (returnErr : option error) (* before [o.done.Store(1)] *)
| AtUnlock (returnErr : option error)    (* before [o.m.Unlock()] *)
| Returned (returnErr : option error)    (* [return returnErr] *)
| Panicked (msg : string).

Record Goroutine : Type := mkGoroutine {
  g_serverAddress : string;
  g_cred : Credential;
  g_pc : pc
}.

Definition at_pc (p : pc) (g : Goroutine) : Goroutine :=
  mkGoroutine (g_serverAddress g) (g_cred g) p.

(** Replace the element at index [i], if there is one. *)
Fixpoint update {A} (i : nat) (x : A) (l : list A) : list A :=
  match l, i with
  | [], _ => []
  | _ :: t, O => x :: t
  | h :: t, S j => h :: update j x t
  end.

Section Concurrent.

Context {Config Helpers : Type} `{!Externals Config Helpers}.

Record Conc : Type := mkConc {
  c_world : World Config Helpers;
  c_locked : bool;                 (* the mutex [m] of the Once *)
  c_goroutines : list Goroutine
}.

(** Goroutine [i] moves to [p]; the world and the mutex become [w]
    and [l]. *)
Definition move (i : nat) (g : Goroutine) (p : pc)
  (w : World Config Helpers) (l : bool) (st : Conc) : Conc :=
  mkConc w l (update i (at_pc p g) (c_goroutines st)).

(** One step of goroutine [i]; [None] when it has finished, does not
    exist, or is blocked on the mutex. *)
Definition step (ds : dynamicStore) (i : nat) (st : Conc) : option Conc :=
  let w := c_world st in
  let l := c_locked st in
  match nth_error (c_goroutines st) i with
  | None => None
  | Some g =>
      match g_pc g with
      | AtPut =>
          match (s <- gets (getStore ds (g_serverAddress g)) ;;
                 Put s (g_serverAddress g) (g_cred g)) w with
          | Ok (Some e) w' => Some (move i g (ReturnedEarly e) w' l st)
          | Ok None w' => Some (move i g AtDo w' l st)
          | Go.Panic msg => Some (move i g (Panicked msg) w l st)
          end
      | AtDo =>
          if w_setCredsStoreOnce w
          then Some (move i g (Returned None) w l st)
          else Some (move i g AtLock w l st)
      | AtLock =>
          if l then None else Some (move i g Locked w true st)
      | Locked =>
          if w_setCredsStoreOnce w
          then Some (move i g (AtUnlock None) w l st)
          else Some (move i g AtFunc w l st)
      | AtFunc =>
          match setCredsStore_func ds None w with
          | Ok returnErr w' => Some (move i g (AtStoreDone returnErr) w' l st)
          | Go.Panic msg => Some (move i g (Panicked msg) w l st)
          end
      | AtStoreDone r => Some (move i g (AtUnlock r) (with_once true w) l st)
      | AtUnlock r => Some (move i g (Returned r) w false st)
      | ReturnedEarly _ | Returned _ | Panicked _ => None
      end
  end.

(** The scheduler picks goroutines in the order [sched]; picking a
    goroutine that cannot move leaves the state as it is. *)
Fixpoint interleave (ds : dynamicStore) (sched : list nat) (st : Conc)
  : Conc :=
  match sched with
  | [] => st
  | i :: rest =>
      match step ds i st with
      | Some st' => interleave ds rest st'
      | None => interleave ds rest st
      end
  end.

(** [N] goroutines about to call Put, one per element of [calls]. *)
Definition spawn (w : World Config Helpers)
  (calls : list (string * Credential)) : Conc :=
  mkConc w false
         (map (fun ac => mkGoroutine (fst ac) (snd ac) AtPut) calls).

(** Every goroutine has returned from Put through the final
    [return returnErr], that is, its backend Put succeeded. *)
Definition all_returned (st : Conc) : bool :=
  forallb (fun g => match g_pc g with Returned _ => true | _ => false end)
          (c_goroutines st).

(** Tally of the goroutines by program counter. *)
Definition tally (f : pc -> nat) (gs : list Goroutine) : nat :=
  list_sum (map (fun g => f (g_pc g)) gs).

Definition holds_lock (p : pc) : nat :=
  match p with
  | Locked | AtFunc | AtStoreDone _ | AtUnlock _ => 1
  | _ => 0
  end.
Definition at_func (p : pc) : nat :=
  match p with AtFunc => 1 | _ => 0 end.
Definition func_returned (p : pc) : nat :=
  match p with AtStoreDone _ => 1 | _ => 0 end.
Definition past_done (p : pc) : nat :=
  match p with AtUnlock _ | Returned _ => 1 | _ => 0 end.
Definition has_panicked (p : pc) : nat :=
  match p with Panicked _ => 1 | _ => 0 end.

(** A goroutine that has nothing left to do. *)
Definition finished (p : pc) : bool :=
  match p with
  | ReturnedEarly _ | Returned _ | Panicked _ => true
  | _ => false
  end.

(** The invariant of the interleaved runs that start with the Once
    not fired and [c0] calls to SetCredentialsStore on record:
    the mutex is locked exactly when one goroutine is inside doSlow;
    [done] is not set while the closure is running or has just
    returned; no goroutine is past the Once while [done] is not set;
    SetCredentialsStore has been called once if a default was
    detected and the closure has run, and not at all otherwise. *)
Record Inv (ds : dynamicStore) (c0 : nat) (st : Conc) : Prop := mkInv {
  inv_lock :
    tally holds_lock (c_goroutines st) = if c_locked st then 1 else 0;
  inv_func :
    w_setCredsStoreOnce (c_world st) = true ->
    tally at_func (c_goroutines st) = 0;
  inv_returned :
    w_setCredsStoreOnce (c_world st) = true ->
    tally func_returned (c_goroutines st) = 0;
  inv_past :
    w_setCredsStoreOnce (c_world st) = false ->
    tally past_done (c_goroutines st) = 0;
  inv_count :
    setCredsStore_count (c_world st)
    = c0 + (if nonempty (detectedCredsStore ds)
            then if w_setCredsStoreOnce (c_world st) then 1
                 else tally func_returned (c_goroutines st)
            else 0);
  inv_panic : tally has_panicked (c_goroutines st) = 0
}.

End Concurrent.

Arguments Conc : clear implicits.
Arguments tally : simpl never.
Arguments setCredsStore_count : simpl never.

(** ** Concrete collaborators

    A small config object and helper platform on which the definitions
    above can be evaluated. *)
Module Fixture.

(** The config document: per-address helpers, the global helper, and
    whether the file can be written. *)
Record Cfg : Type := mkCfg {
  credHelpers : list (string * string);
  credsStore : string;
  auths : list (string * Credential);
  writable : bool
}.

(** The platform: what each helper program stores, which helper
    programs fail, and the platform default helper. *)
Record Platform : Type := mkPlatform {
  vault : list (string * Credential);
  broken : list string;
  default_helper : string
}.

Fixpoint lookup {A} (k : string) (l : list (string * A)) : option A :=
  match l with
  | [] => None
  | (k', v) :: t => if String.eqb k k' then Some v else lookup k t
  end.

Fixpoint remove {A} (k : string) (l : list (string * A)) : list (string * A) :=
  match l with
  | [] => []
  | (k', v) :: t => if String.eqb k k' then remove k t
                    else (k', v) :: remove k t
  end.

Definition mem (k : string) (l : list string) : bool :=
  existsb (String.eqb k) l.

Definition or_empty (o : option Credential) : Credential :=
  match o with Some c => c | None => EmptyCredential end.

Definition or_blank (o : option string) : string :=
  match o with Some s => s | None => EmptyString end.

Definition ErrPlaintextPutDisabled : error :=
  errorString "putting plaintext credentials is disabled".
Definition ErrReadOnly : error := errorString "config file is read-only".
Definition ErrHelper : error := errorString "helper program failed".
Definition ErrNotExist : error := errorString "no such config file".

Definition blank : Cfg := mkCfg [] EmptyString [] true.
Definition readonly : Cfg := mkCfg [] EmptyString [] false.
Definition configured : Cfg :=
  mkCfg [("registry.example.com", "helper-a")] "helper-b" [] true.

(** Modelled from the spec: the Config view and the native and
    plaintext backends of its external interfaces, whose code is not
    in store.go. A per-address helper or the global helper is the empty
    string when none is configured; authentication counts as configured
    when a helper, a per-address entry or a stored credential exists;
    a plaintext Put fails when DisablePut is set. *)
#[export] Instance externals : Externals Cfg Platform := {
  Load path :=
    if String.eqb path "blank.json" then inl blank
    else if String.eqb path "readonly.json" then inl readonly
    else if String.eqb path "configured.json" then inl configured
    else inr ErrNotExist;
  GetCredentialHelper cfg a := or_blank (lookup a (credHelpers cfg));
  CredentialsStore cfg := credsStore cfg;
  IsAuthConfigured cfg :=
    nonempty (credsStore cfg)
    || negb (Nat.eqb (length (credHelpers cfg)) 0)
    || negb (Nat.eqb (length (auths cfg)) 0);
  SetCredentialsStore cfg name :=
    if writable cfg
    then (None, mkCfg (credHelpers cfg) name (auths cfg) (writable cfg))
    else (Some ErrReadOnly, cfg);
  FileStore_Get fs a cfg := ((or_empty (lookup a (auths cfg)), None), cfg);
  FileStore_Put fs a c cfg :=
    if DisablePut fs then (Some ErrPlaintextPutDisabled, cfg)
    else if writable cfg
    then (None, mkCfg (credHelpers cfg) (credsStore cfg)
                      ((a, c) :: remove a (auths cfg)) (writable cfg))
    else (Some ErrReadOnly, cfg);
  FileStore_Delete fs a cfg :=
    if writable cfg
    then (None, mkCfg (credHelpers cfg) (credsStore cfg)
                      (remove a (auths cfg)) (writable cfg))
    else (Some ErrReadOnly, cfg);
  nativeStore_Get helper a p :=
    if mem helper (broken p) then ((EmptyCredential, Some ErrHelper), p)
    else ((or_empty (lookup (helper ++ "/" ++ a) (vault p)), None), p);
  nativeStore_Put helper a c p :=
    if mem helper (broken p) then (Some ErrHelper, p)
    else (None, mkPlatform ((helper ++ "/" ++ a, c)
                              :: remove (helper ++ "/" ++ a) (vault p))
                           (broken p) (default_helper p));
  nativeStore_Delete helper a p :=
    if mem helper (broken p) then (Some ErrHelper, p)
    else (None, mkPlatform (remove (helper ++ "/" ++ a) (vault p))
                           (broken p) (default_helper p));
  getDefaultHelperSuffix p := default_helper p
}.

Definition linux : Platform := mkPlatform [] [] "pass".
Definition linux_broken_pass : Platform := mkPlatform [] ["pass"] "pass".
Definition bare : Platform := mkPlatform [] [] EmptyString.

Definition alice : Credential := mkCredential "alice" "wonderland" EmptyString EmptyString.
Definition bob : Credential := mkCredential EmptyString EmptyString "refresh-bob" EmptyString.

Definition opts (allow : bool) : StoreOptions :=
  {| AllowPlaintextPut := allow |}.

(** A resolver with the detected default "pass", as [NewStore] builds
    it from a config without authentication. *)
Definition ds_pass : dynamicStore :=
  {| options := opts false; detectedCredsStore := "pass" |}.

(** A resolver without a detected default. *)
Definition ds_none : dynamicStore :=
  {| options := opts false; detectedCredsStore := EmptyString |}.

Definition world (cfg : Cfg) (p : Platform) : World Cfg Platform :=
  mkWorld cfg p false [].

(** Stores for exercising a fallback chain: the world is the list of
    names of the stores that were called; every method answers with a
    fixed reply. *)
Definition spy (name : string) (reply : Credential * option error)
  : Store (list string) :=
  {| Get := fun _ => lift (fun log => (reply, (log ++ [name])%list));
     Put := fun _ _ => lift (fun log => (snd reply, (log ++ [name])%list));
     Delete := fun _ => lift (fun log => (snd reply, (log ++ [name])%list)) |}.

Definition ErrB1 : error := errorString "B1 is down".

Definition B0 : Store (list string) := spy "B0" (EmptyCredential, None).
Definition B1_down : Store (list string) := spy "B1" (alice, Some ErrB1).
Definition B1_empty : Store (list string) := spy "B1" (EmptyCredential, None).
Definition B2 : Store (list string) := spy "B2" (alice, None).
Definition B3 : Store (list string) := spy "B3" (bob, None).

Definition registry : string := "registry.example.com".
Definition other : string := "other.example.com".

(** Two goroutines, [Put(registry, alice)] and [Put(other, bob)],
    and a schedule in which both pass the first check of the Once
    before either takes the mutex. *)
Definition two_calls : list (string * Credential) :=
  [(registry, alice); (other, bob)].
Definition racy : list nat := [0; 1; 0; 1; 0; 1; 0; 0; 0; 0; 1; 1; 1].

(** The world after [Put(registry, alice)] reached the helper "pass"
    from [world readonly linux]. *)
Definition readonly_after_backend : World Cfg Platform :=
  mkWorld readonly
          (mkPlatform [("pass/registry.example.com", alice)] [] "pass")
          false
          [CallNative "pass" MPut registry].

End Fixture.

(** ** The default docker config file *)

Definition dockerConfigDirEnv : string := "DOCKER_CONFIG".
Definition dockerConfigFileDir : string := ".docker".
Definition dockerConfigFileName : string := "config.json".

(** What [getDockerConfigPath] asks of the operating system:
    [os.Getenv], [os.UserHomeDir] and [filepath.Join] of Go's standard
    library, taken as parameters. *)
Class OS : Type := {
  Getenv : string -> string;
  UserHomeDir : string + error;
  filepath_Join : list string -> string
}.

Section Docker.

Context {Config Helpers : Type} `{!Externals Config Helpers} `{!OS}.

(** [func getDockerConfigPath() (string, error)] *)
Definition getDockerConfigPath : string + error :=
  let configDir := Getenv dockerConfigDirEnv in
  let configDir_or_err :=
    if String.eqb configDir EmptyString then
      match UserHomeDir with
      | inr err => inr (Errorf_w "failed to get user home directory" err)
      | inl homeDir => inl (filepath_Join [homeDir; dockerConfigFileDir])
      end
    else inl configDir in
  match configDir_or_err with
  | inr err => inr err
  | inl configDir => inl (filepath_Join [configDir; dockerConfigFileName])
  end.

(** [func NewStoreFromDocker(opt StoreOptions) (Store, error)] *)
Definition NewStoreFromDocker (opt : StoreOptions) (platform : Helpers)
  : (dynamicStore * World Config Helpers) + error :=
  match getDockerConfigPath with
  | inr err => inr err
  | inl configPath => NewStore configPath opt platform
  end.

End Docker.

(** ** More on the concurrent callers *)

(** How many moves a goroutine at [p] has left at most. *)
Definition steps_left (p : pc) : nat :=
  match p with
  | AtPut => 7
  | AtDo => 6
  | AtLock => 5
  | Locked => 4
  | AtFunc => 3
  | AtStoreDone _ => 2
  | AtUnlock _ => 1
  | ReturnedEarly _ | Returned _ | Panicked _ => 0
  end.




(** The reply of a Put call that has returned. *)
Definition reply_of (p : pc) : option (option error) :=
  match p with
  | ReturnedEarly e => Some (Some e)
  | Returned r => Some r
  | _ => None
  end.

Section ConcurrentMore.

Context {Config Helpers : Type} `{!Externals Config Helpers}.

Definition all_finished (st : Conc Config Helpers) : bool :=
  forallb (fun g => finished (g_pc g)) (c_goroutines st).


(** The schedule that runs goroutines [first], [first+1], ...,
    [first+n-1] one after the other, each to its end. *)
Definition one_by_one (first n : nat) : list nat :=
  flat_map (fun i => repeat i 7) (seq first n).

(** The goroutine of a call, at the program counter [p]. *)
Definition goroutine_at (p : pc) (ac : string * Credential) : Goroutine :=
  mkGoroutine (fst ac) (snd ac) p.

(** Number of moves made under a schedule, the picks of goroutines
    that cannot move not counted. *)
Fixpoint moves (ds : dynamicStore) (sched : list nat)
  (st : Conc Config Helpers) : nat :=
  match sched with
  | [] => 0
  | i :: rest =>
      match step ds i st with
      | Some st' => S (moves ds rest st')
      | None => moves ds rest st
      end
  end.

(** The requests of the callers, as a sequential caller issues them. *)
Definition Puts (calls : list (string * Credential)) : list Op :=
  map (fun ac => OpPut (fst ac) (snd ac)) calls.

(** The state in which goroutine [i] of [gs], which is [g], stands at
    [p], with world [w] and mutex [l]. *)
Definition solo (i : nat) (g : Goroutine) (gs : list Goroutine) (p : pc)
  (w : World Config Helpers) (l : bool) : Conc Config Helpers :=
  mkConc w l (update i (at_pc p g) gs).

(** What a goroutine has returned, as a reply to a Put request. *)
Definition Put_reply (g : Goroutine) : option Reply :=
  option_map ReplyPut (reply_of (g_pc g)).

End ConcurrentMore.

(** Concrete operating systems. *)
Module DockerFixture.

Definition join_slash (parts : list string) : string :=
  String.concat "/" parts.

Definition ErrNoHome : error := errorString "$HOME is not defined".

(** DOCKER_CONFIG set, no home directory. *)
Definition env_set : OS :=
  {| Getenv := fun k => if String.eqb k "DOCKER_CONFIG" then "/etc/docker"
                        else EmptyString;
     UserHomeDir := inr ErrNoHome;
     filepath_Join := join_slash |}.

(** DOCKER_CONFIG not set, home directory known. *)
Definition env_home : OS :=
  {| Getenv := fun _ => EmptyString;
     UserHomeDir := inl "/home/alice";
     filepath_Join := join_slash |}.

(** DOCKER_CONFIG not set, no home directory. *)
Definition env_none : OS :=
  {| Getenv := fun _ => EmptyString;
     UserHomeDir := inr ErrNoHome;
     filepath_Join := join_slash |}.

End DockerFixture.

(** ** Requests before the first successful write *)
Section BeforeFirstWrite.

Context {Config Helpers : Type} `{!Externals Config Helpers}.

(** [no_write_yet ds w w']: the resolver went from world [w] to world
    [w'] through requests to its Get, Delete and Put, none of which
    was a Put whose backend write succeeded. *)
Inductive no_write_yet (ds : dynamicStore)
  : World Config Helpers -> World Config Helpers -> Prop :=
| nwy_start : forall w, no_write_yet ds w w
| nwy_Get : forall a w r w1 w2,
    Get (dynamicStore_Store ds) a w = Ok r w1 ->
    no_write_yet ds w1 w2 ->
    no_write_yet ds w w2
| nwy_Delete : forall a w r w1 w2,
    Delete (dynamicStore_Store ds) a w = Ok r w1 ->
    no_write_yet ds w1 w2 ->
    no_write_yet ds w w2
| nwy_Put_failed : forall a cred w e w' r w1 w2,
    Put (getStore ds a w) a cred w = Ok (Some e) w' ->
    Put (dynamicStore_Store ds) a cred w = Ok r w1 ->
    no_write_yet ds w1 w2 ->
    no_write_yet ds w w2.

End BeforeFirstWrite.

(** Concrete collaborators whose helper programs refuse one address. *)
Module FlakyFixture.

Import Fixture.

Definition down : string := "down.example.com".

(** Modelled from the spec: the collaborators of [Fixture.externals],
    except that every helper program fails to store a credential for
    the address [down]. *)
Definition flaky : Externals Cfg Platform :=
  {| Load := @Load _ _ externals;
     GetCredentialHelper := @GetCredentialHelper _ _ externals;
     CredentialsStore := @CredentialsStore _ _ externals;
     IsAuthConfigured := @IsAuthConfigured _ _ externals;
     SetCredentialsStore := @SetCredentialsStore _ _ externals;
     FileStore_Get := @FileStore_Get _ _ externals;
     FileStore_Put := @FileStore_Put _ _ externals;
     FileStore_Delete := @FileStore_Delete _ _ externals;
     nativeStore_Get := @nativeStore_Get _ _ externals;
     nativeStore_Put := fun helper a c p =>
       if String.eqb a down then (Some ErrHelper, p)
       else @nativeStore_Put _ _ externals helper a c p;
     nativeStore_Delete := @nativeStore_Delete _ _ externals;
     getDefaultHelperSuffix := @getDefaultHelperSuffix _ _ externals |}.

(** The world after [Put(down, alice)] failed and [Get(registry)]
    returned, from [world blank linux]. *)
Definition after_failed_Put : World Cfg Platform :=
  mkWorld blank linux false
          [CallNative "pass" MPut down; CallNative "pass" MGet registry].

End FlakyFixture.

(** * Theorems *)

Open Scope list_scope.

(** ** Basic facts *)

Lemma Credential_eqb_eq (a b : Credential) :
  Credential_eqb a b = true <-> a = b.
Proof.
  destruct a as [u1 p1 r1 t1], b as [u2 p2 r2 t2].
  unfold Credential_eqb; simpl.
  rewrite !andb_true_iff, !String.eqb_eq.
  split.
  - intros [[[-> ->] ->] ->]. reflexivity.
  - intros E. injection E as -> -> -> ->. auto.
Qed.

Lemma Credential_neq_true (a b : Credential) :
  Credential_neq a b = true <-> a <> b.
Proof.
  unfold Credential_neq. rewrite negb_true_iff.
  rewrite <- not_true_iff_false, Credential_eqb_eq. tauto.
Qed.

Lemma Credential_neq_refl (a : Credential) : Credential_neq a a = false.
Proof.
  unfold Credential_neq. apply negb_false_iff. now apply Credential_eqb_eq.
Qed.

Lemma nonempty_false (s : string) : nonempty s = false <-> s = EmptyString.
Proof.
  unfold nonempty. rewrite negb_false_iff. apply String.eqb_eq.
Qed.

Lemma nonempty_true (s : string) : nonempty s = true <-> s <> EmptyString.
Proof.
  unfold nonempty. rewrite negb_true_iff. apply String.eqb_neq.
Qed.

(** ** storeWithFallbacks *)
Section FallbacksTheory.

Variable W : Type.
Implicit Types (s primary : Store W) (ss pre post fallbacks : list (Store W)).
Implicit Types (a : string) (w : W).

(** The loop walks past every store that misses. *)
Lemma Get_loop_skips_misses a pre w w1 :
  misses a pre w w1 ->
  forall rest, Get_loop (pre ++ rest) a w = Get_loop rest a w1.
Proof.
  induction 1 as [w | s ss w w1 w2 Hs _ IH]; intros rest.
  - reflexivity.
  - simpl. unfold bind at 1. rewrite Hs.
    rewrite Credential_neq_refl. apply IH.
Qed.

Lemma Get_loop_error s post a w cred e w' :
  Get s a w = Ok (cred, Some e) w' ->
  Get_loop (s :: post) a w = Ok (EmptyCredential, Some e) w'.
Proof.
  intros Hs. simpl. unfold bind. rewrite Hs. reflexivity.
Qed.

Lemma Get_loop_found s post a w cred w' :
  Get s a w = Ok (cred, None) w' ->
  cred <> EmptyCredential ->
  Get_loop (s :: post) a w = Ok (cred, None) w'.
Proof.
  intros Hs Hne. simpl. unfold bind. rewrite Hs.
  apply Credential_neq_true in Hne. rewrite Hne. reflexivity.
Qed.

(** C3. In a fallback chain's Get the stores are asked in order, and
    the first call that returns an error ends the search: the stores
    before it all missed, the result is the empty credential with
    that error, whatever credential came with the error is dropped,
    and the world is the one that call left, so that no later store
    was asked. *)
Theorem fallback_Get_stops_at_error pre s post a w w1 w2 cred e :
  misses a pre w w1 ->
  Get s a w1 = Ok (cred, Some e) w2 ->
  Get (storeWithFallbacks_Store {| stores := pre ++ s :: post |}) a w
  = Ok (EmptyCredential, Some e) w2.
Proof.
  intros Hpre Hs. simpl. unfold storeWithFallbacks_Get. simpl.
  rewrite (Get_loop_skips_misses Hpre).
  eapply Get_loop_error; eassumption.
Qed.

(** C4. In a fallback chain's Get, when the stores asked so far all
    missed and the next one returns a non-empty credential without
    error, that credential is the result and no later store is
    asked; when every store misses, the result is the empty
    credential without error. *)
Theorem fallback_Get_first_found :
  (forall pre s post a w w1 w2 cred,
      misses a pre w w1 ->
      Get s a w1 = Ok (cred, None) w2 ->
      cred <> EmptyCredential ->
      Get (storeWithFallbacks_Store {| stores := pre ++ s :: post |}) a w
      = Ok (cred, None) w2)
  /\ (forall ss a w w1,
      misses a ss w w1 ->
      Get (storeWithFallbacks_Store {| stores := ss |}) a w
      = Ok (EmptyCredential, None) w1).
Proof.
  split.
  - intros pre s post a w w1 w2 cred Hpre Hs Hne.
    simpl. unfold storeWithFallbacks_Get. simpl.
    rewrite (Get_loop_skips_misses Hpre).
    now apply Get_loop_found.
  - intros ss a w w1 Hall.
    simpl. unfold storeWithFallbacks_Get. simpl.
    rewrite <- (app_nil_r ss).
    rewrite (Get_loop_skips_misses Hall). reflexivity.
Qed.

(** C5. Put and Delete of a fallback chain are the Put and Delete of
    its first store: same result, same world afterwards, whatever
    the fallbacks are and however many. *)
Theorem fallback_Put_Delete_primary_only primary fallbacks a :
  (forall cred w,
      Put (storeWithFallbacks_Store {| stores := primary :: fallbacks |})
          a cred w
      = Put primary a cred w)
  /\ (forall w,
      Delete (storeWithFallbacks_Store {| stores := primary :: fallbacks |})
             a w
      = Delete primary a w)
  /\ (forall cred w,
      Put (NewStoreWithFallbacks primary fallbacks) a cred w
      = Put primary a cred w)
  /\ (forall w,
      Delete (NewStoreWithFallbacks primary fallbacks) a w
      = Delete primary a w).
Proof.
  repeat split; intros; try reflexivity;
    unfold NewStoreWithFallbacks; destruct fallbacks; reflexivity.
Qed.

(** C6. With no fallbacks NewStoreWithFallbacks returns the primary
    store itself, so each method of the result is the method of the
    primary, errors included. *)
Theorem NewStoreWithFallbacks_no_fallbacks primary :
  NewStoreWithFallbacks primary [] = primary
  /\ (forall a w, Get (NewStoreWithFallbacks primary []) a w
                  = Get primary a w)
  /\ (forall a cred w, Put (NewStoreWithFallbacks primary []) a cred w
                       = Put primary a cred w)
  /\ (forall a w, Delete (NewStoreWithFallbacks primary []) a w
                  = Delete primary a w).
Proof. repeat split. Qed.

(** C10. With at least one fallback NewStoreWithFallbacks returns a
    composite whose list of stores is the primary followed by the
    fallbacks: it has one more element than there are fallbacks, so
    [stores[0]] is in bounds and is the primary, and Put and Delete
    do not raise the index panic. *)
Theorem NewStoreWithFallbacks_nonempty primary fallbacks :
  1 <= length fallbacks ->
  exists sf,
    NewStoreWithFallbacks primary fallbacks = storeWithFallbacks_Store sf
    /\ stores sf = primary :: fallbacks
    /\ length (stores sf) = 1 + length fallbacks
    /\ nth_error (stores sf) 0 = Some primary
    /\ (forall w, index0 (stores sf) w = Ok primary w)
    /\ (forall a cred w,
           Put (storeWithFallbacks_Store sf) a cred w = Put primary a cred w)
    /\ (forall a w,
           Delete (storeWithFallbacks_Store sf) a w = Delete primary a w).
Proof.
  intros Hlen.
  exists {| stores := [primary] ++ fallbacks |}.
  unfold NewStoreWithFallbacks.
  destruct fallbacks as [|f fs]; [simpl in Hlen; lia|].
  repeat split.
Qed.

End FallbacksTheory.

(** ** dynamicStore *)
Section DynamicTheory.

Context {Config Helpers : Type} `{!Externals Config Helpers}.

Implicit Types (w : World Config Helpers) (ds : dynamicStore) (a : string).
Implicit Types (b : Backend) (cred : Credential).

Lemma count_record_call c w :
  setCredsStore_count (record_call c w)
  = setCredsStore_count w + (if isSetCredentialsStore c then 1 else 0).
Proof.
  unfold setCredsStore_count, record_call; simpl.
  rewrite filter_app, length_app. simpl.
  destruct (isSetCredentialsStore c); reflexivity.
Qed.

(** What a call to a collaborator does to the world. *)
Lemma on_config_run {A} c (f : Config -> A * Config) w :
  on_config c f w
  = Ok (fst (f (w_config w)))
       (with_config (snd (f (w_config w))) (record_call c w)).
Proof.
  unfold on_config, lift. destruct (f (w_config w)); reflexivity.
Qed.

Lemma on_helpers_run {A} c (f : Helpers -> A * Helpers) w :
  on_helpers c f w
  = Ok (fst (f (w_helpers w)))
       (with_helpers (snd (f (w_helpers w))) (record_call c w)).
Proof.
  unfold on_helpers, lift. destruct (f (w_helpers w)); reflexivity.
Qed.

Lemma after_count b m a w w' :
  after (backend_call b m a) w w' ->
  setCredsStore_count w' = setCredsStore_count w.
Proof.
  intros [Hc _]. unfold setCredsStore_count. rewrite Hc.
  rewrite filter_app, length_app. destruct b; simpl; lia.
Qed.

Lemma backend_Get_ok b a w :
  exists r w', Get (backend_Store b) a w = Ok r w'
               /\ after (backend_call b MGet a) w w'.
Proof.
  destruct b; simpl;
    [rewrite on_helpers_run | rewrite on_config_run];
    eexists; eexists; split; try reflexivity; split; reflexivity.
Qed.

Lemma backend_Put_ok b a cred w :
  exists r w', Put (backend_Store b) a cred w = Ok r w'
               /\ after (backend_call b MPut a) w w'.
Proof.
  destruct b; simpl;
    [rewrite on_helpers_run | rewrite on_config_run];
    eexists; eexists; split; try reflexivity; split; reflexivity.
Qed.

Lemma backend_Delete_ok b a w :
  exists r w', Delete (backend_Store b) a w = Ok r w'
               /\ after (backend_call b MDelete a) w w'.
Proof.
  destruct b; simpl;
    [rewrite on_helpers_run | rewrite on_config_run];
    eexists; eexists; split; try reflexivity; split; reflexivity.
Qed.

(** The store built by [getStore] is the one the four-step rule
    selects. *)
Lemma getStore_selected ds a w :
  getStore ds a w = backend_Store (selected ds a w).
Proof.
  unfold getStore, getHelperSuffix, selected, spec_select.
  destruct (nonempty (GetCredentialHelper (w_config w) a)) eqn:E1.
  - rewrite E1. reflexivity.
  - destruct (nonempty (CredentialsStore (w_config w))) eqn:E2.
    + rewrite E2. reflexivity.
    + destruct (nonempty (detectedCredsStore ds)) eqn:E3; reflexivity.
Qed.

Lemma dynamicStore_Get_eq ds a w :
  dynamicStore_Get ds a w = Get (getStore ds a w) a w.
Proof. reflexivity. Qed.

Lemma dynamicStore_Delete_eq ds a w :
  dynamicStore_Delete ds a w = Delete (getStore ds a w) a w.
Proof. reflexivity. Qed.

Lemma dynamicStore_Put_eq ds a cred w :
  dynamicStore_Put ds a cred w
  = match Put (getStore ds a w) a cred w with
    | Ok (Some e) w1 => Ok (Some e) w1
    | Ok None w1 => Once_Do (setCredsStore_func ds) None w1
    | Go.Panic msg => Go.Panic msg
    end.
Proof.
  unfold dynamicStore_Put, bind, gets.
  destruct (Put (getStore ds a w) a cred w) as [[e|] w1|msg]; reflexivity.
Qed.

(** The closure passed to the Once: it returns, and calls
    SetCredentialsStore exactly when a default was detected. *)
Lemma setCredsStore_func_run ds w :
  setCredsStore_func ds None w
  = if nonempty (detectedCredsStore ds) then
      let r := SetCredentialsStore (w_config w) (detectedCredsStore ds) in
      Ok match fst r with
         | Some e => Some (Errorf_w "failed to set credsStore" e)
         | None => None
         end
         (with_config (snd r)
            (record_call (CallSetCredentialsStore (detectedCredsStore ds)) w))
    else Ok None w.
Proof.
  unfold setCredsStore_func.
  destruct (nonempty (detectedCredsStore ds)); [|reflexivity].
  unfold bind. rewrite on_config_run. simpl.
  destruct (fst (SetCredentialsStore (w_config w) (detectedCredsStore ds)));
    reflexivity.
Qed.

Lemma setCredsStore_func_ok ds w :
  exists r w', setCredsStore_func ds None w = Ok r w'
    /\ w_setCredsStoreOnce w' = w_setCredsStoreOnce w
    /\ w_helpers w' = w_helpers w
    /\ setCredsStore_count w'
       = setCredsStore_count w
         + (if nonempty (detectedCredsStore ds) then 1 else 0).
Proof.
  rewrite setCredsStore_func_run.
  destruct (nonempty (detectedCredsStore ds)).
  - eexists; eexists; split; [reflexivity|]. simpl.
    repeat split.
    change (setCredsStore_count
              (record_call (CallSetCredentialsStore (detectedCredsStore ds)) w)
            = setCredsStore_count w + 1).
    rewrite count_record_call. reflexivity.
  - exists None, w. repeat split. lia.
Qed.

(** The Once: a set flag skips the closure; otherwise the closure
    runs and the flag is set. *)
Lemma Once_Do_ok ds w :
  exists r w', Once_Do (setCredsStore_func ds) None w = Ok r w'
    /\ w_setCredsStoreOnce w' = true
    /\ w_helpers w' = w_helpers w
    /\ setCredsStore_count w'
       = setCredsStore_count w
         + (if w_setCredsStoreOnce w then 0
            else if nonempty (detectedCredsStore ds) then 1 else 0).
Proof.
  unfold Once_Do.
  destruct (w_setCredsStoreOnce w) eqn:Eo.
  - exists None, w. repeat split; auto.
  - destruct (setCredsStore_func_ok ds w) as (r & w' & -> & Ho & Hh & Hc).
    exists r, (with_once true w'). repeat split; auto.
Qed.

(** Put, split along its two return statements. *)
Lemma dynamicStore_Put_cases ds a cred w :
  exists err w1,
    Put (getStore ds a w) a cred w = Ok err w1
    /\ after (backend_call (selected ds a w) MPut a) w w1
    /\ match err with
       | Some e => dynamicStore_Put ds a cred w = Ok (Some e) w1
       | None =>
           exists r w2,
             dynamicStore_Put ds a cred w = Ok r w2
             /\ Once_Do (setCredsStore_func ds) None w1 = Ok r w2
             /\ w_setCredsStoreOnce w2 = true
             /\ w_helpers w2 = w_helpers w1
             /\ setCredsStore_count w2
                = setCredsStore_count w1
                  + (if w_setCredsStoreOnce w1 then 0
                     else if nonempty (detectedCredsStore ds) then 1 else 0)
       end.
Proof.
  rewrite dynamicStore_Put_eq, getStore_selected.
  destruct (backend_Put_ok (selected ds a w) a cred w)
    as (err & w1 & Hput & Haft).
  exists err, w1. rewrite Hput. split; [reflexivity|]. split; [assumption|].
  destruct err as [e|]; [reflexivity|].
  destruct (Once_Do_ok ds w1) as (r & w2 & Hdo & Ho & Hh & Hc).
  exists r, w2. auto.
Qed.

Lemma exec_budget ds op w :
  exists r w', exec (dynamicStore_Store ds) op w = Ok r w'
               /\ budget w' <= budget w
               /\ setCredsStore_count w <= setCredsStore_count w'.
Proof.
  destruct op as [a | a cred | a]; simpl; unfold bind.
  - rewrite dynamicStore_Get_eq, getStore_selected.
    destruct (backend_Get_ok (selected ds a w) a w) as ([c e] & w' & -> & Haft).
    eexists; eexists; split; [reflexivity|].
    unfold budget. rewrite (after_count _ _ _ Haft).
    destruct Haft as [_ ->]. lia.
  - destruct (dynamicStore_Put_cases ds a cred w)
      as (err & w1 & _ & Haft & Hcase).
    pose proof (after_count _ _ _ Haft) as Hc1. destruct Haft as [_ Ho1].
    destruct err as [e|].
    + rewrite Hcase. eexists; eexists; split; [reflexivity|].
      unfold budget. rewrite Hc1, Ho1. lia.
    + destruct Hcase as (r & w2 & -> & _ & Ho2 & _ & Hc2).
      eexists; eexists; split; [reflexivity|].
      unfold budget. rewrite Hc2, Ho2, Hc1, Ho1.
      destruct (w_setCredsStoreOnce w);
        destruct (nonempty (detectedCredsStore ds)); lia.
  - rewrite dynamicStore_Delete_eq, getStore_selected.
    destruct (backend_Delete_ok (selected ds a w) a w) as (e & w' & -> & Haft).
    eexists; eexists; split; [reflexivity|].
    unfold budget. rewrite (after_count _ _ _ Haft).
    destruct Haft as [_ ->]. lia.
Qed.

Lemma run_budget ds ops :
  forall w, exists rs w', run (dynamicStore_Store ds) ops w = Ok rs w'
                          /\ budget w' <= budget w
                          /\ setCredsStore_count w <= setCredsStore_count w'.
Proof.
  induction ops as [|op ops IH]; intros w.
  - exists [], w. repeat split; auto.
  - destruct (exec_budget ds op w) as (r & w1 & Hop & Hb1 & Hm1).
    destruct (IH w1) as (rs & w2 & Hrun & Hb2 & Hm2).
    exists (r :: rs), w2. simpl. unfold bind at 1. rewrite Hop.
    unfold bind at 1. rewrite Hrun. repeat split; [lia | lia].
Qed.

(** Once the flag is set, no request calls SetCredentialsStore. *)
Lemma run_after_Once ds ops w :
  w_setCredsStoreOnce w = true ->
  exists rs w', run (dynamicStore_Store ds) ops w = Ok rs w'
                /\ setCredsStore_count w' = setCredsStore_count w.
Proof.
  intros Ho.
  destruct (run_budget ds ops w) as (rs & w' & Hrun & Hb & Hm).
  exists rs, w'. split; [assumption|].
  unfold budget in Hb. rewrite Ho in Hb.
  destruct (w_setCredsStoreOnce w'); lia.
Qed.

(** Without a detected default, no request calls SetCredentialsStore. *)
Lemma exec_no_default ds op w :
  detectedCredsStore ds = EmptyString ->
  exists r w', exec (dynamicStore_Store ds) op w = Ok r w'
               /\ setCredsStore_count w' = setCredsStore_count w.
Proof.
  intros Hd.
  assert (Hn : nonempty (detectedCredsStore ds) = false)
    by now apply nonempty_false.
  destruct op as [a | a cred | a]; simpl; unfold bind.
  - rewrite dynamicStore_Get_eq, getStore_selected.
    destruct (backend_Get_ok (selected ds a w) a w) as ([c e] & w' & -> & Haft).
    eexists; eexists; split; [reflexivity|]. apply (after_count _ _ _ Haft).
  - destruct (dynamicStore_Put_cases ds a cred w)
      as (err & w1 & _ & Haft & Hcase).
    pose proof (after_count _ _ _ Haft) as Hc1.
    destruct err as [e|].
    + rewrite Hcase. eexists; eexists; split; [reflexivity|]. assumption.
    + destruct Hcase as (r & w2 & -> & _ & _ & _ & Hc2).
      eexists; eexists; split; [reflexivity|].
      rewrite Hc2, Hc1, Hn. destruct (w_setCredsStoreOnce w1); lia.
  - rewrite dynamicStore_Delete_eq, getStore_selected.
    destruct (backend_Delete_ok (selected ds a w) a w) as (e & w' & -> & Haft).
    eexists; eexists; split; [reflexivity|]. apply (after_count _ _ _ Haft).
Qed.

Lemma run_no_default ds ops :
  detectedCredsStore ds = EmptyString ->
  forall w, exists rs w', run (dynamicStore_Store ds) ops w = Ok rs w'
                          /\ setCredsStore_count w' = setCredsStore_count w.
Proof.
  intros Hd. induction ops as [|op ops IH]; intros w.
  - exists [], w. split; reflexivity.
  - destruct (exec_no_default ds op w Hd) as (r & w1 & Hop & Hc1).
    destruct (IH w1) as (rs & w2 & Hrun & Hc2).
    exists (r :: rs), w2. simpl. unfold bind at 1. rewrite Hop.
    unfold bind at 1. rewrite Hrun. split; [reflexivity | lia].
Qed.

Lemma Once_Do_calls ds w :
  exists r w' rest,
    Once_Do (setCredsStore_func ds) None w = Ok r w'
    /\ w_calls w' = w_calls w ++ rest
    /\ forallb isSetCredentialsStore rest = true.
Proof.
  unfold Once_Do. destruct (w_setCredsStoreOnce w).
  - exists None, w, []. rewrite app_nil_r. auto.
  - rewrite setCredsStore_func_run.
    destruct (nonempty (detectedCredsStore ds)).
    + eexists; eexists;
        exists [CallSetCredentialsStore (detectedCredsStore ds)].
      split; [reflexivity|]. split; reflexivity.
    + exists None, (with_once true w), []. simpl.
      rewrite app_nil_r. auto.
Qed.

(** C1. For every server address the resolver builds the backend of
    the four-step rule: the per-address helper if the config has one,
    else the global helper, else the detected default, else the
    plaintext file store with DisablePut = not AllowPlaintextPut. Get
    and Delete are that backend's Get and Delete, Put starts with
    that backend's Put, and the one backend call that a request
    records is a call to it. *)
Theorem resolver_selects_by_priority ds a w :
  getStore ds a w = backend_Store (selected ds a w)
  /\ Get (dynamicStore_Store ds) a w
     = Get (backend_Store (selected ds a w)) a w
  /\ Delete (dynamicStore_Store ds) a w
     = Delete (backend_Store (selected ds a w)) a w
  /\ (forall cred, exists err w1,
        Put (backend_Store (selected ds a w)) a cred w = Ok err w1
        /\ Put (dynamicStore_Store ds) a cred w
           = match err with
             | Some e => Ok (Some e) w1
             | None => Once_Do (setCredsStore_func ds) None w1
             end)
  /\ (forall op,
        exists r w' rest,
          exec (dynamicStore_Store ds) op w = Ok r w'
          /\ w_calls w'
             = w_calls w
               ++ backend_call (selected ds (Op_address op) w)
                               (Op_method op) (Op_address op) :: rest
          /\ forallb isSetCredentialsStore rest = true).
Proof.
  split; [apply getStore_selected|].
  split; [simpl; now rewrite dynamicStore_Get_eq, getStore_selected|].
  split; [simpl; now rewrite dynamicStore_Delete_eq, getStore_selected|].
  split.
  - intros cred.
    destruct (backend_Put_ok (selected ds a w) a cred w)
      as (err & w1 & Hput & _).
    exists err, w1. split; [assumption|]. simpl.
    rewrite dynamicStore_Put_eq, getStore_selected, Hput.
    destruct err; reflexivity.
  - clear a. intros op. destruct op as [a | a cred | a]; simpl; unfold bind.
    + rewrite dynamicStore_Get_eq, getStore_selected.
      destruct (backend_Get_ok (selected ds a w) a w)
        as ([c e] & w' & -> & Hc & _).
      eexists; exists w', []. split; [reflexivity|]. auto.
    + rewrite dynamicStore_Put_eq, getStore_selected.
      destruct (backend_Put_ok (selected ds a w) a cred w)
        as (err & w1 & -> & Hc & _).
      destruct err as [e|].
      * eexists; exists w1, []. split; [reflexivity|]. auto.
      * destruct (Once_Do_calls ds w1) as (r & w2 & rest & -> & Hc2 & Hall).
        eexists; exists w2, rest. split; [reflexivity|].
        rewrite Hc2, Hc, <- app_assoc. auto.
    + rewrite dynamicStore_Delete_eq, getStore_selected.
      destruct (backend_Delete_ok (selected ds a w) a w)
        as (e & w' & -> & Hc & _).
      eexists; exists w', []. split; [reflexivity|]. auto.
Qed.

Lemma NewStore_world path opts platform ds w0 :
  NewStore path opts platform = inl (ds, w0) ->
  w_setCredsStoreOnce w0 = false /\ w_calls w0 = []
  /\ Load path = inl (w_config w0).
Proof.
  unfold NewStore. destruct (Load path) as [cfg|err]; [|discriminate].
  intros E. injection E as _ <-. auto.
Qed.

(** C2. Over any sequence of requests to a resolver,
    SetCredentialsStore is called at most once since NewStore; a Get
    or a Delete neither calls it nor touches the Once; a Put whose
    backend write fails returns that error and neither calls it nor
    touches the Once, so that a later Put whose backend write
    succeeds still persists the detected default; and a Put that
    calls it is one whose backend write succeeded. *)
Theorem persist_at_most_once :
  (forall path opts platform ds w0 ops,
      NewStore path opts platform = inl (ds, w0) ->
      exists rs w', run (dynamicStore_Store ds) ops w0 = Ok rs w'
                    /\ setCredsStore_count w' <= 1)
  /\ (forall ds ops w,
      exists rs w', run (dynamicStore_Store ds) ops w = Ok rs w'
                    /\ setCredsStore_count w'
                       <= setCredsStore_count w
                          + (if w_setCredsStoreOnce w then 0 else 1))
  /\ (forall ds a w,
      (exists r w', Get (dynamicStore_Store ds) a w = Ok r w'
                    /\ setCredsStore_count w' = setCredsStore_count w
                    /\ w_setCredsStoreOnce w' = w_setCredsStoreOnce w)
      /\ (exists r w', Delete (dynamicStore_Store ds) a w = Ok r w'
                    /\ setCredsStore_count w' = setCredsStore_count w
                    /\ w_setCredsStoreOnce w' = w_setCredsStoreOnce w))
  /\ (forall ds a cred w e w1,
      Put (getStore ds a w) a cred w = Ok (Some e) w1 ->
      Put (dynamicStore_Store ds) a cred w = Ok (Some e) w1
      /\ setCredsStore_count w1 = setCredsStore_count w
      /\ w_setCredsStoreOnce w1 = w_setCredsStoreOnce w)
  /\ (forall ds a cred w w1,
      Put (getStore ds a w) a cred w = Ok None w1 ->
      w_setCredsStoreOnce w = false ->
      detectedCredsStore ds <> EmptyString ->
      exists r w', Put (dynamicStore_Store ds) a cred w = Ok r w'
                   /\ setCredsStore_count w' = setCredsStore_count w + 1
                   /\ w_setCredsStoreOnce w' = true)
  /\ (forall ds a cred w r w',
      Put (dynamicStore_Store ds) a cred w = Ok r w' ->
      setCredsStore_count w' <> setCredsStore_count w ->
      (exists w1, Put (getStore ds a w) a cred w = Ok None w1)
      /\ w_setCredsStoreOnce w = false
      /\ w_setCredsStoreOnce w' = true
      /\ setCredsStore_count w' = setCredsStore_count w + 1).
Proof.
  split; [|split; [|split; [|split; [|split]]]].
  - intros path opts platform ds w0 ops HN.
    destruct (NewStore_world _ _ _ HN) as (Ho & Hc & _).
    destruct (run_budget ds ops w0) as (rs & w' & Hrun & Hb & _).
    exists rs, w'. split; [assumption|].
    unfold budget, setCredsStore_count in Hb. rewrite Ho, Hc in Hb.
    simpl in Hb. fold (setCredsStore_count w') in Hb.
    destruct (w_setCredsStoreOnce w'); lia.
  - intros ds ops w.
    destruct (run_budget ds ops w) as (rs & w' & Hrun & Hb & _).
    exists rs, w'. split; [assumption|].
    unfold budget in Hb. destruct (w_setCredsStoreOnce w'); lia.
  - intros ds a w. simpl. split.
    + rewrite dynamicStore_Get_eq, getStore_selected.
      destruct (backend_Get_ok (selected ds a w) a w) as (r & w' & -> & Haft).
      exists r, w'. split; [reflexivity|].
      split; [apply (after_count _ _ _ Haft) | apply Haft].
    + rewrite dynamicStore_Delete_eq, getStore_selected.
      destruct (backend_Delete_ok (selected ds a w) a w)
        as (r & w' & -> & Haft).
      exists r, w'. split; [reflexivity|].
      split; [apply (after_count _ _ _ Haft) | apply Haft].
  - intros ds a cred w e w1 Hput. simpl.
    destruct (dynamicStore_Put_cases ds a cred w)
      as (err & w1' & Hput' & Haft & Hcase).
    rewrite Hput in Hput'. injection Hput' as <- <-.
    split; [assumption|].
    split; [apply (after_count _ _ _ Haft) | apply Haft].
  - intros ds a cred w w1 Hput Ho Hd. simpl.
    destruct (dynamicStore_Put_cases ds a cred w)
      as (err & w1' & Hput' & Haft & Hcase).
    rewrite Hput in Hput'. injection Hput' as <- <-.
    destruct Hcase as (r & w2 & HP & _ & Ho2 & _ & Hc2).
    exists r, w2. split; [assumption|]. split; [|assumption].
    rewrite Hc2, (after_count _ _ _ Haft).
    destruct Haft as [_ ->]. rewrite Ho.
    apply nonempty_true in Hd. rewrite Hd. reflexivity.
  - intros ds a cred w r w' HP Hne. simpl in HP.
    destruct (dynamicStore_Put_cases ds a cred w)
      as (err & w1 & Hput & Haft & Hcase).
    pose proof (after_count _ _ _ Haft) as Hc1. destruct Haft as [_ Ho1].
    destruct err as [e|].
    + rewrite Hcase in HP. injection HP as <- <-. congruence.
    + destruct Hcase as (r' & w2 & HP' & _ & Ho2 & _ & Hc2).
      rewrite HP' in HP. injection HP as <- <-.
      rewrite Hc1, Ho1 in Hc2.
      split; [now exists w1|].
      destruct (w_setCredsStoreOnce w); [lia|].
      destruct (nonempty (detectedCredsStore ds)); [|lia].
      repeat split; auto.
Qed.

Lemma wrapError_neq msg e : wrapError msg e <> e.
Proof.
  revert msg. induction e as [m | m e IH]; intros msg E.
  - discriminate.
  - injection E as _ E. exact (IH _ E).
Qed.

(** With a detected default every address resolves to a native
    helper. *)
Lemma selected_native ds a w :
  detectedCredsStore ds <> EmptyString ->
  exists name, selected ds a w = NativeHelper name.
Proof.
  intros Hd. apply nonempty_true in Hd.
  unfold selected, spec_select. rewrite Hd.
  destruct (nonempty (GetCredentialHelper (w_config w) a));
    [eexists; reflexivity|].
  destruct (nonempty (CredentialsStore (w_config w))); eexists; reflexivity.
Qed.

(** C7. When the backend Put succeeds and the SetCredentialsStore
    that follows fails with [e], this Put returns [e] wrapped behind
    the context "failed to set credsStore"; the world afterwards is
    the one the backend write left, with the helper's state as that
    write made it, changed only by the failed config call and the
    Once being set; and no later request calls SetCredentialsStore
    again. *)
Theorem persist_failure_is_wrapped ds a cred w w1 e cfg2 :
  w_setCredsStoreOnce w = false ->
  detectedCredsStore ds <> EmptyString ->
  Put (getStore ds a w) a cred w = Ok None w1 ->
  SetCredentialsStore (w_config w1) (detectedCredsStore ds) = (Some e, cfg2) ->
  let err := Errorf_w "failed to set credsStore" e in
  let w2 :=
    with_once true
      (with_config cfg2
         (record_call (CallSetCredentialsStore (detectedCredsStore ds)) w1)) in
  Put (dynamicStore_Store ds) a cred w = Ok (Some err) w2
  /\ Unwrap err = Some e
  /\ err <> e
  /\ (exists name,
        selected ds a w = NativeHelper name
        /\ w_helpers w2 = snd (nativeStore_Put name a cred (w_helpers w)))
  /\ (forall ops, exists rs w3,
        run (dynamicStore_Store ds) ops w2 = Ok rs w3
        /\ setCredsStore_count w3 = setCredsStore_count w2).
Proof.
  intros Ho Hd Hput Hset err w2.
  pose proof Hd as Hn. apply nonempty_true in Hn.
  split; [|split; [reflexivity|split; [apply wrapError_neq|split]]].
  - simpl. rewrite dynamicStore_Put_eq, Hput.
    destruct (dynamicStore_Put_cases ds a cred w)
      as (err' & w1' & Hput' & [_ Ho1] & _).
    rewrite Hput in Hput'. injection Hput' as <- <-.
    unfold Once_Do. rewrite Ho1, Ho.
    rewrite setCredsStore_func_run, Hn. simpl. rewrite Hset. reflexivity.
  - destruct (selected_native ds a w Hd) as (name & Hsel).
    exists name. split; [assumption|].
    rewrite getStore_selected, Hsel in Hput. simpl in Hput.
    rewrite on_helpers_run in Hput. injection Hput as _ <-. reflexivity.
  - intros ops. apply run_after_Once. reflexivity.
Qed.

(** C8. A resolver built by NewStore from a config on which
    IsAuthConfigured holds has an empty detected default. Selection
    then has three steps only: per-address helper, global helper,
    plaintext file store; and no sequence of requests, from any
    world, calls SetCredentialsStore. *)
Theorem auth_configured_no_default path opts platform cfg :
  Load path = inl cfg ->
  IsAuthConfigured cfg = true ->
  exists ds w0,
    NewStore path opts platform = inl (ds, w0)
    /\ w_config w0 = cfg
    /\ detectedCredsStore ds = EmptyString
    /\ (forall a w,
          getStore ds a w
          = if nonempty (GetCredentialHelper (w_config w) a)
            then NewNativeStore (GetCredentialHelper (w_config w) a)
            else if nonempty (CredentialsStore (w_config w))
            then NewNativeStore (CredentialsStore (w_config w))
            else FileStore_Store
                   {| DisablePut := negb (AllowPlaintextPut opts) |})
    /\ (forall ops, exists rs w',
          run (dynamicStore_Store ds) ops w0 = Ok rs w'
          /\ setCredsStore_count w' = 0)
    /\ (forall ops w, exists rs w',
          run (dynamicStore_Store ds) ops w = Ok rs w'
          /\ setCredsStore_count w' = setCredsStore_count w).
Proof.
  intros HL HA.
  exists {| options := opts; detectedCredsStore := EmptyString |},
         (mkWorld cfg platform false []).
  split; [unfold NewStore; rewrite HL, HA; reflexivity|].
  split; [reflexivity|]. split; [reflexivity|].
  split; [|split].
  - intros a w. rewrite getStore_selected.
    unfold selected, spec_select; simpl.
    destruct (nonempty (GetCredentialHelper (w_config w) a));
      [reflexivity|].
    destruct (nonempty (CredentialsStore (w_config w))); reflexivity.
  - intros ops.
    destruct (run_no_default
                {| options := opts; detectedCredsStore := EmptyString |}
                ops eq_refl (mkWorld cfg platform false []))
      as (rs & w' & Hrun & Hc).
    exists rs, w'. split; [assumption|]. rewrite Hc. reflexivity.
  - intros ops w. now apply run_no_default.
Qed.

End DynamicTheory.

(** ** Concurrent callers *)
Section ConcurrentTheory.

Context {Config Helpers : Type} `{!Externals Config Helpers}.

Implicit Types (ds : dynamicStore) (st : Conc Config Helpers).
Implicit Types (g : Goroutine) (p : pc).
Implicit Types (gs : list Goroutine) (f : pc -> nat).

Lemma length_update {A} i (x : A) l : length (update i x l) = length l.
Proof.
  revert i; induction l as [|h t IH]; intros [|j]; simpl; auto.
Qed.

Lemma tally_update f gs : forall i g p,
  nth_error gs i = Some g ->
  tally f (update i (at_pc p g) gs) + f (g_pc g) = tally f gs + f p.
Proof.
  unfold tally.
  induction gs as [|h t IH]; intros [|j] g p Hn; simpl in *; try discriminate.
  - injection Hn as ->. lia.
  - specialize (IH j g p Hn). lia.
Qed.

Lemma tally_In f gs g : In g gs -> f (g_pc g) <= tally f gs.
Proof.
  unfold tally. induction gs as [|h t IH]; simpl; [tauto|].
  intros [-> | Hin]; [lia|]. specialize (IH Hin). lia.
Qed.

Lemma tally_pos f gs :
  0 < tally f gs -> exists i g, nth_error gs i = Some g /\ 0 < f (g_pc g).
Proof.
  unfold tally. induction gs as [|h t IH]; simpl; [lia|].
  intros Hpos. destruct (f (g_pc h)) eqn:E.
  - destruct (IH Hpos) as (i & g & Hn & Hf). exists (S i), g. auto.
  - exists 0, h. simpl. split; [reflexivity | lia].
Qed.

Lemma tally_inside gs :
  tally at_func gs + tally func_returned gs <= tally holds_lock gs.
Proof.
  unfold tally. induction gs as [|h t IH]; simpl; [lia|].
  destruct (g_pc h); simpl; lia.
Qed.

(** The backend call of a goroutine: it returns, leaves the Once
    alone and does not call SetCredentialsStore. *)
Lemma backend_step_ok ds a cred (w : World Config Helpers) :
  exists err w',
    (s <- gets (getStore ds a) ;; Put s a cred) w = Ok err w'
    /\ w_setCredsStoreOnce w' = w_setCredsStoreOnce w
    /\ setCredsStore_count w' = setCredsStore_count w.
Proof.
  unfold bind, gets. rewrite getStore_selected.
  destruct (backend_Put_ok (selected ds a w) a cred w)
    as (err & w' & -> & Haft).
  exists err, w'. split; [reflexivity|].
  split; [apply Haft | apply (after_count _ _ _ Haft)].
Qed.

Lemma spawn_Inv ds (w : World Config Helpers) calls :
  w_setCredsStoreOnce w = false ->
  Inv ds (setCredsStore_count w) (spawn w calls).
Proof.
  intros Ho.
  assert (Hz : forall f, f AtPut = 0 ->
               tally f (c_goroutines (spawn w calls)) = 0).
  { intros f Hf. unfold tally, spawn; simpl.
    induction calls as [|c cs IH]; simpl; [reflexivity|].
    rewrite Hf, IH. reflexivity. }
  constructor; simpl; intros; try (apply Hz; reflexivity).
  rewrite Ho. change (map _ calls) with (c_goroutines (spawn w calls)).
  rewrite (Hz func_returned eq_refl).
  destruct (nonempty (detectedCredsStore ds)); lia.
Qed.

Lemma count_with_once b (w : World Config Helpers) :
  setCredsStore_count (with_once b w) = setCredsStore_count w.
Proof. reflexivity. Qed.

(** The effect of a move on the five tallies. *)
Ltac tallies Hn Epc p :=
  pose proof (tally_update holds_lock _ _ p Hn) as Th;
  pose proof (tally_update at_func _ _ p Hn) as Tf;
  pose proof (tally_update func_returned _ _ p Hn) as Tr;
  pose proof (tally_update past_done _ _ p Hn) as Tp;
  pose proof (tally_update has_panicked _ _ p Hn) as Tx;
  rewrite Epc in Th, Tf, Tr, Tp, Tx.

(** Use or drop the guarded facts once the guard is decided. *)
Ltac decide_guards :=
  repeat match goal with
         | H : true = true -> _ |- _ => specialize (H eq_refl)
         | H : false = false -> _ |- _ => specialize (H eq_refl)
         | H : true = false -> _ |- _ => clear H
         | H : false = true -> _ |- _ => clear H
         end.

(** Case analysis on the flag of the Once, the mutex and whether a
    default was detected. *)
Ltac flags st ds :=
  destruct (w_setCredsStoreOnce (c_world st)) eqn:Eo;
  destruct (c_locked st) eqn:El;
  destruct (nonempty (detectedCredsStore ds)) eqn:Ed;
  rewrite ?Eo, ?El, ?Ed in *; decide_guards.

Ltac close_Inv :=
  constructor; simpl;
  repeat match goal with
         | H : w_setCredsStoreOnce ?w = _
           |- context [w_setCredsStoreOnce ?w] => rewrite H
         | H : setCredsStore_count ?w = _
           |- context [setCredsStore_count ?w] => rewrite H
         | H : nonempty ?s = _ |- context [nonempty ?s] => rewrite H
         | H : c_locked ?s = _ |- context [c_locked ?s] => rewrite H
         end;
  rewrite ?count_with_once;
  repeat match goal with
         | H : setCredsStore_count ?w = _
           |- context [setCredsStore_count ?w] => rewrite H
         end;
  simpl in *; intros; decide_guards; try discriminate; try lia.

(** Read the move off the step taken, and tally it. *)
Ltac advance Hn Epc Hstep :=
  cbv iota in Hstep; try discriminate; injection Hstep as <-;
  match goal with
  | |- Inv _ _ (move _ _ ?p _ _ _) => tallies Hn Epc p
  end.

Lemma step_Inv ds c0 i st st' :
  Inv ds c0 st -> step ds i st = Some st' -> Inv ds c0 st'.
Proof.
  intros [Il If Ir Ip Ic Ix] Hstep.
  pose proof (tally_inside (c_goroutines st)) as Hin.
  unfold step in Hstep.
  destruct (nth_error (c_goroutines st) i) as [g|] eqn:Hn; [|discriminate].
  destruct (g_pc g) eqn:Epc; try discriminate.
  - (* AtPut *)
    destruct (backend_step_ok ds (g_serverAddress g) (g_cred g) (c_world st))
      as (err & w' & Hb & Ho & Hc).
    rewrite Hb in Hstep.
    destruct err as [e|]; flags st ds; advance Hn Epc Hstep; close_Inv.
  - (* AtDo *)
    flags st ds; advance Hn Epc Hstep; close_Inv.
  - (* AtLock *)
    flags st ds; advance Hn Epc Hstep; close_Inv.
  - (* Locked *)
    flags st ds; advance Hn Epc Hstep; close_Inv.
  - (* AtFunc *)
    destruct (setCredsStore_func_ok ds (c_world st))
      as (r & w' & Hf & Ho & _ & Hc).
    rewrite Hf in Hstep.
    flags st ds; advance Hn Epc Hstep; close_Inv.
  - (* AtStoreDone *)
    flags st ds; advance Hn Epc Hstep; close_Inv.
  - (* AtUnlock *)
    flags st ds; advance Hn Epc Hstep; close_Inv.
Qed.

Lemma interleave_Inv ds c0 sched : forall st,
  Inv ds c0 st -> Inv ds c0 (interleave ds sched st).
Proof.
  induction sched as [|i rest IH]; intros st HI; simpl; [assumption|].
  destruct (step ds i st) as [st'|] eqn:Hs.
  - apply IH. eapply step_Inv; eassumption.
  - apply IH. assumption.
Qed.

Lemma interleave_length ds sched : forall st,
  length (c_goroutines (interleave ds sched st)) = length (c_goroutines st).
Proof.
  induction sched as [|i rest IH]; intros st; simpl; [reflexivity|].
  destruct (step ds i st) as [st'|] eqn:Hs; [|apply IH].
  rewrite IH. unfold step in Hs.
  destruct (nth_error (c_goroutines st) i) as [g|]; [|discriminate].
  destruct (g_pc g); try discriminate;
    repeat match type of Hs with
           | context [match ?x with _ => _ end] => destruct x
           end;
    try discriminate; injection Hs as <-; simpl; apply length_update.
Qed.

(** A goroutine that is not waiting for a locked mutex can move. *)
Lemma can_step ds st i g :
  nth_error (c_goroutines st) i = Some g ->
  finished (g_pc g) = false ->
  g_pc g <> AtLock \/ c_locked st = false ->
  exists st', step ds i st = Some st'.
Proof.
  intros Hn Hf Hfree. unfold step. rewrite Hn.
  destruct (g_pc g) eqn:Epc; try discriminate.
  - destruct (backend_step_ok ds (g_serverAddress g) (g_cred g) (c_world st))
      as ([e|] & w' & -> & _); eexists; reflexivity.
  - destruct (w_setCredsStoreOnce (c_world st)); eexists; reflexivity.
  - destruct Hfree as [Hne | ->]; [congruence | eexists; reflexivity].
  - destruct (w_setCredsStoreOnce (c_world st)); eexists; reflexivity.
  - destruct (setCredsStore_func_ok ds (c_world st)) as (r & w' & -> & _).
    eexists; reflexivity.
  - eexists; reflexivity.
  - eexists; reflexivity.
Qed.

(** While some goroutine has not finished, some goroutine can move:
    a caller waiting for the mutex waits for a holder that can. *)
Lemma Inv_progress ds c0 st i g :
  Inv ds c0 st ->
  nth_error (c_goroutines st) i = Some g ->
  finished (g_pc g) = false ->
  exists j st', step ds j st = Some st'.
Proof.
  intros HI Hn Hf.
  destruct (c_locked st) eqn:El.
  - pose proof (inv_lock HI) as Hl. rewrite El in Hl.
    destruct (tally_pos holds_lock (c_goroutines st)) as (j & h & Hj & Hh);
      [lia|].
    exists j. apply (can_step ds st j Hj).
    + destruct (g_pc h); simpl in Hh; try lia; reflexivity.
    + left. intros E. rewrite E in Hh. simpl in Hh. lia.
  - exists i. apply (can_step ds st i Hn Hf). now right.
Qed.

Lemma all_returned_In st g :
  all_returned st = true -> In g (c_goroutines st) ->
  exists r, g_pc g = Returned r.
Proof.
  unfold all_returned. rewrite forallb_forall. intros Hall Hin.
  specialize (Hall g Hin). destruct (g_pc g); try discriminate.
  eexists; reflexivity.
Qed.

Lemma Inv_returned ds c0 st g r :
  Inv ds c0 st -> In g (c_goroutines st) -> g_pc g = Returned r ->
  w_setCredsStoreOnce (c_world st) = true.
Proof.
  intros HI Hin Hr.
  destruct (w_setCredsStoreOnce (c_world st)) eqn:Eo; [reflexivity|].
  pose proof (inv_past HI Eo) as Hp.
  pose proof (tally_In past_done _ _ Hin) as Hle.
  rewrite Hr in Hle. simpl in Hle. lia.
Qed.

(** C9, as amended. N goroutines call Put on one resolver whose Once
    has not fired, under any schedule. At every point of the run:
    SetCredentialsStore has been called at most once; as soon as one
    caller has returned from the Once, the one execution of the closure
    is over: the Once is done, no goroutine is inside the closure, and
    SetCredentialsStore has already been called once if a default was
    detected (and not at all if none was); and some goroutine can move
    as long as one has not finished. When all N >= 1 calls have
    returned with their backend write succeeded, SetCredentialsStore
    has been called exactly once if a default was detected, and not at
    all if none was. *)
Theorem concurrent_Put_persists_once ds (w0 : World Config Helpers)
  calls sched :
  w_setCredsStoreOnce w0 = false ->
  let st := interleave ds sched (spawn w0 calls) in
  length (c_goroutines st) = length calls
  /\ setCredsStore_count (c_world st) <= setCredsStore_count w0 + 1
  /\ (forall g r, In g (c_goroutines st) -> g_pc g = Returned r ->
        w_setCredsStoreOnce (c_world st) = true
        /\ tally at_func (c_goroutines st) = 0
        /\ (forall h, In h (c_goroutines st) -> g_pc h <> AtFunc)
        /\ setCredsStore_count (c_world st)
           = setCredsStore_count w0
             + (if nonempty (detectedCredsStore ds) then 1 else 0))
  /\ (forall i g, nth_error (c_goroutines st) i = Some g ->
                  finished (g_pc g) = false ->
                  exists j st', step ds j st = Some st')
  /\ (all_returned st = true -> calls <> [] ->
      setCredsStore_count (c_world st)
      = setCredsStore_count w0
        + (if nonempty (detectedCredsStore ds) then 1 else 0))
  /\ (detectedCredsStore ds = EmptyString ->
      setCredsStore_count (c_world st) = setCredsStore_count w0).
Proof.
  intros Ho st.
  assert (HI : Inv ds (setCredsStore_count w0) st)
    by (apply interleave_Inv, spawn_Inv; assumption).
  assert (Hlen : length (c_goroutines st) = length calls).
  { unfold st. rewrite interleave_length. unfold spawn; simpl.
    apply length_map. }
  pose proof (tally_inside (c_goroutines st)) as Hin.
  pose proof (inv_lock HI) as Hl.
  pose proof (inv_count HI) as Hc.
  split; [assumption|]. split; [|split; [|split; [|split]]].
  - rewrite Hc.
    destruct (nonempty (detectedCredsStore ds)); [|lia].
    destruct (w_setCredsStoreOnce (c_world st)); [lia|].
    destruct (c_locked st); lia.
  - intros g r Hg Hr.
    assert (Eo : w_setCredsStoreOnce (c_world st) = true)
      by (eapply Inv_returned; eassumption).
    pose proof (inv_func HI Eo) as Hf.
    split; [assumption|]. split; [assumption|]. split.
    + intros h Hh Eh.
      pose proof (tally_In at_func _ _ Hh) as Hle.
      rewrite Eh, Hf in Hle. simpl in Hle. lia.
    + rewrite Hc, Eo. reflexivity.
  - intros i g Hn Hf. eapply Inv_progress; eassumption.
  - intros Hall Hne.
    destruct (c_goroutines st) as [|g gs] eqn:Eg.
    + destruct calls; [congruence | discriminate].
    + assert (Hg : In g (c_goroutines st)) by (rewrite Eg; now left).
      destruct (all_returned_In st g Hall Hg) as (r & Hr).
      assert (Eo : w_setCredsStoreOnce (c_world st) = true)
        by (eapply Inv_returned; eassumption).
      rewrite Hc, Eo. reflexivity.
  - intros Hd. apply nonempty_false in Hd. rewrite Hc, Hd. lia.
Qed.

End ConcurrentTheory.

(** ** The theorems on concrete stores *)
Section Instances.

Import Fixture.

(** The routing example: with a per-address helper "helper-a" for
    registry.example.com and the global helper "helper-b", requests
    for that address go to "helper-a" and requests for another
    address go to "helper-b". *)
Example routing_example :
  selected ds_none registry (world configured linux) = NativeHelper "helper-a"
  /\ selected ds_none other (world configured linux) = NativeHelper "helper-b"
  /\ selected ds_pass registry (world configured linux)
     = NativeHelper "helper-a"
  /\ selected ds_pass other (world blank linux) = NativeHelper "pass"
  /\ selected ds_none other (world blank bare) = PlaintextFile true.
Proof. repeat split. Qed.

(** The two chain examples: [B1(empty), B2(X), B3(Y)] yields X with
    B3 never called; [B1(error E), B2(X)] yields (EMPTY, E) with B2
    never called. *)
Example chain_examples :
  Get (storeWithFallbacks_Store {| stores := [B1_empty; B2; B3] |})
      registry []
  = Ok (alice, None) ["B1"; "B2"]
  /\ Get (storeWithFallbacks_Store {| stores := [B1_down; B2] |})
         registry []
     = Ok (EmptyCredential, Some ErrB1) ["B1"].
Proof. split; reflexivity. Qed.

(** Put and Delete on a chain reach the first store only. *)
Example chain_write_example :
  Put (NewStoreWithFallbacks B2 [B3; B0]) registry bob [] = Ok None ["B2"]
  /\ Delete (NewStoreWithFallbacks B2 [B3; B0]) registry [] = Ok None ["B2"]
  /\ panics (Put (storeWithFallbacks_Store {| stores := [] |})
                 registry bob (@nil string)) = true.
Proof. repeat split. Qed.

Lemma fallback_Get_stops_at_error_witness :
  misses registry [B0] [] ["B0"]
  /\ Get B1_down registry ["B0"] = Ok (alice, Some ErrB1) ["B0"; "B1"]
  /\ Get (storeWithFallbacks_Store {| stores := [B0] ++ B1_down :: [B2] |})
         registry []
     = Ok (EmptyCredential, Some ErrB1) ["B0"; "B1"].
Proof.
  assert (Hm : misses registry [B0] [] ["B0"])
    by (econstructor; [reflexivity | constructor]).
  split; [exact Hm|]. split; [reflexivity|].
  eapply fallback_Get_stops_at_error; [exact Hm | reflexivity].
Defined.

Lemma fallback_Get_first_found_witness :
  misses registry [B0; B1_empty] [] ["B0"; "B1"]
  /\ Get B2 registry ["B0"; "B1"] = Ok (alice, None) ["B0"; "B1"; "B2"]
  /\ alice <> EmptyCredential
  /\ Get (storeWithFallbacks_Store
            {| stores := [B0; B1_empty] ++ B2 :: [B3] |}) registry []
     = Ok (alice, None) ["B0"; "B1"; "B2"]
  /\ Get (storeWithFallbacks_Store {| stores := [B0; B1_empty] |})
         registry []
     = Ok (EmptyCredential, None) ["B0"; "B1"].
Proof.
  assert (Hm : misses registry [B0; B1_empty] [] ["B0"; "B1"])
    by (econstructor; [reflexivity|];
        econstructor; [reflexivity | constructor]).
  assert (Hne : alice <> EmptyCredential) by discriminate.
  split; [exact Hm|]. split; [reflexivity|]. split; [exact Hne|].
  split.
  - eapply (proj1 (fallback_Get_first_found (list string)));
      [exact Hm | reflexivity | exact Hne].
  - apply (proj2 (fallback_Get_first_found (list string))). exact Hm.
Defined.

Lemma NewStoreWithFallbacks_nonempty_witness :
  1 <= length [B3]
  /\ exists sf,
      NewStoreWithFallbacks B2 [B3] = storeWithFallbacks_Store sf
      /\ stores sf = B2 :: [B3]
      /\ length (stores sf) = 1 + length [B3]
      /\ nth_error (stores sf) 0 = Some B2
      /\ (forall w, index0 (stores sf) w = Ok B2 w)
      /\ (forall a cred w,
             Put (storeWithFallbacks_Store sf) a cred w = Put B2 a cred w)
      /\ (forall a w,
             Delete (storeWithFallbacks_Store sf) a w = Delete B2 a w).
Proof.
  split; [simpl; lia|].
  apply NewStoreWithFallbacks_nonempty. simpl; lia.
Defined.

(** A resolver on a blank config with the helper "pass" out of
    order: the failed Put leaves the Once alone; over a whole
    sequence from NewStore at most one SetCredentialsStore. *)
Lemma persist_at_most_once_witness :
  NewStore "blank.json" (opts false) linux
  = inl (ds_pass, world blank linux)
  /\ (exists rs w',
        run (dynamicStore_Store ds_pass)
            [OpPut registry alice; OpGet registry; OpPut other bob;
             OpDelete registry]
            (world blank linux) = Ok rs w'
        /\ setCredsStore_count w' <= 1)
  /\ Put (getStore ds_pass registry (world blank linux_broken_pass))
         registry alice (world blank linux_broken_pass)
     = Ok (Some ErrHelper)
          (record_call (CallNative "pass" MPut registry)
                       (world blank linux_broken_pass))
  /\ Put (dynamicStore_Store ds_pass) registry alice
         (world blank linux_broken_pass)
     = Ok (Some ErrHelper)
          (record_call (CallNative "pass" MPut registry)
                       (world blank linux_broken_pass)).
Proof.
  split; [reflexivity|]. split; [|split; [reflexivity|]].
  - exact (proj1 persist_at_most_once
             "blank.json" (opts false) linux ds_pass (world blank linux)
             [OpPut registry alice; OpGet registry; OpPut other bob;
              OpDelete registry]
             eq_refl).
  - exact (proj1 (proj1 (proj2 (proj2 (proj2 persist_at_most_once)))
                    ds_pass registry alice (world blank linux_broken_pass)
                    ErrHelper _ eq_refl)).
Defined.

(** A resolver with the detected default "pass" on a read-only
    config: the first Put stores the credential in the helper and
    returns the wrapped error. *)
Lemma persist_failure_is_wrapped_witness :
  w_setCredsStoreOnce (world readonly linux) = false
  /\ detectedCredsStore ds_pass <> EmptyString
  /\ Put (getStore ds_pass registry (world readonly linux))
         registry alice (world readonly linux)
     = Ok None readonly_after_backend
  /\ SetCredentialsStore (w_config readonly_after_backend)
                         (detectedCredsStore ds_pass)
     = (Some ErrReadOnly, readonly)
  /\ Put (dynamicStore_Store ds_pass) registry alice (world readonly linux)
     = Ok (Some (Errorf_w "failed to set credsStore" ErrReadOnly))
          (with_once true
             (with_config readonly
                (record_call (CallSetCredentialsStore "pass")
                             readonly_after_backend))).
Proof.
  assert (Hd : detectedCredsStore ds_pass <> EmptyString) by discriminate.
  split; [reflexivity|]. split; [exact Hd|].
  split; [reflexivity|]. split; [reflexivity|].
  exact (proj1 (persist_failure_is_wrapped
                  ds_pass registry alice (world readonly linux)
                  eq_refl Hd eq_refl eq_refl)).
Defined.

(** NewStore on a config with helpers configured. *)
Lemma auth_configured_no_default_witness :
  Load "configured.json" = inl configured
  /\ IsAuthConfigured configured = true
  /\ exists ds w0,
      NewStore "configured.json" (opts true) linux = inl (ds, w0)
      /\ w_config w0 = configured
      /\ detectedCredsStore ds = EmptyString
      /\ (forall ops, exists rs w',
            run (dynamicStore_Store ds) ops w0 = Ok rs w'
            /\ setCredsStore_count w' = 0).
Proof.
  assert (HL : Load "configured.json" = inl configured) by reflexivity.
  assert (HA : IsAuthConfigured configured = true) by reflexivity.
  split; [exact HL|]. split; [exact HA|].
  destruct (auth_configured_no_default "configured.json" (opts true) linux
              HL HA)
    as (ds & w0 & HN & Hc & Hd & _ & Hrun & _).
  exists ds, w0. auto.
Defined.

(** Two racing Puts on a resolver with the detected default "pass":
    one call to SetCredentialsStore. *)
Lemma concurrent_Put_persists_once_witness :
  w_setCredsStoreOnce (world blank linux) = false
  /\ all_returned (interleave ds_pass racy (spawn (world blank linux)
                                                  two_calls)) = true
  /\ setCredsStore_count
       (c_world (interleave ds_pass racy (spawn (world blank linux)
                                                two_calls)))
     = 0 + 1
  /\ (forall g r,
        In g (c_goroutines (interleave ds_pass [0; 1; 0; 1; 0; 1; 0; 0; 0; 0]
                              (spawn (world blank linux) two_calls))) ->
        g_pc g = Returned r ->
        w_setCredsStoreOnce
          (c_world (interleave ds_pass [0; 1; 0; 1; 0; 1; 0; 0; 0; 0]
                      (spawn (world blank linux) two_calls))) = true
        /\ tally at_func
             (c_goroutines (interleave ds_pass [0; 1; 0; 1; 0; 1; 0; 0; 0; 0]
                              (spawn (world blank linux) two_calls))) = 0
        /\ (forall h,
              In h (c_goroutines
                      (interleave ds_pass [0; 1; 0; 1; 0; 1; 0; 0; 0; 0]
                         (spawn (world blank linux) two_calls))) ->
              g_pc h <> AtFunc)
        /\ setCredsStore_count
             (c_world (interleave ds_pass [0; 1; 0; 1; 0; 1; 0; 0; 0; 0]
                         (spawn (world blank linux) two_calls)))
           = setCredsStore_count (world blank linux)
             + (if nonempty (detectedCredsStore ds_pass) then 1 else 0)).
Proof.
  split; [reflexivity|]. split; [reflexivity|]. split.
  - refine (proj1 (proj2 (proj2 (proj2 (proj2
              (concurrent_Put_persists_once ds_pass (world blank linux)
                 two_calls racy eq_refl))))) eq_refl _).
    discriminate.
  - exact (proj1 (proj2 (proj2
             (concurrent_Put_persists_once ds_pass (world blank linux)
                two_calls [0; 1; 0; 1; 0; 1; 0; 0; 0; 0] eq_refl)))).
Defined.

(** Against C9 as stated. The resolver that NewStore builds from a
    config with helpers configured has no detected default; two
    racing Puts on it both succeed at their backends and return, and
    SetCredentialsStore has been called zero times, not once. *)
Lemma concurrent_Put_exactly_once_counterexample :
  NewStore "configured.json" (opts false) linux
  = inl (ds_none, world configured linux)
  /\ all_returned (interleave ds_none racy (spawn (world configured linux)
                                                  two_calls)) = true
  /\ map g_pc (c_goroutines
                 (interleave ds_none racy (spawn (world configured linux)
                                                 two_calls)))
     = [Returned None; Returned None]
  /\ setCredsStore_count
       (c_world (interleave ds_none racy (spawn (world configured linux)
                                                two_calls)))
     <> 1.
Proof.
  split; [reflexivity|]. split; [reflexivity|]. split; [reflexivity|].
  vm_compute. discriminate.
Qed.

End Instances.

(** * Further properties *)

(** ** storeWithFallbacks: composition and outcomes *)
Section FallbacksMore.

Variable W : Type.
Implicit Types (s primary : Store W) (ss pre post : list (Store W)).
Implicit Types (a : string) (w : W).

(** The loop over a concatenation: the second part is reached exactly
    when the first part ends without error and without a credential. *)
Lemma Get_loop_app ss1 ss2 a : forall w,
  Get_loop (ss1 ++ ss2) a w
  = match Get_loop ss1 a w with
    | Ok (cred, Some e) w' => Ok (EmptyCredential, Some e) w'
    | Ok (cred, None) w' =>
        if Credential_neq cred EmptyCredential then Ok (cred, None) w'
        else Get_loop ss2 a w'
    | Go.Panic msg => Go.Panic msg
    end.
Proof.
  induction ss1 as [|s ss1 IH]; intros w.
  - reflexivity.
  - simpl. unfold bind.
    destruct (Get s a w) as [[c [e|]] w'|msg]; try reflexivity.
    destruct (Credential_neq c EmptyCredential) eqn:E.
    + unfold ret. rewrite E. reflexivity.
    + apply IH.
Qed.

(** The loop over a list headed by a composite is the loop over the
    flattened list. *)
Lemma Get_loop_nested inner ss2 a w :
  Get_loop (storeWithFallbacks_Store {| stores := inner |} :: ss2) a w
  = Get_loop (inner ++ ss2) a w.
Proof.
  rewrite Get_loop_app.
  cbn [Get_loop Get storeWithFallbacks_Store storeWithFallbacks_Get stores].
  unfold bind.
  destruct (Get_loop inner a w) as [[c [e|]] w'|msg]; try reflexivity.
  destruct (Credential_neq c EmptyCredential); reflexivity.
Qed.

(** X1. Chains nest associatively: a chain built on top of a chain
    answers every Get, Put and Delete exactly as the single chain of the
    same stores in the same order. *)
Theorem NewStoreWithFallbacks_nested primary fs1 fs2 a :
  (forall w,
      Get (NewStoreWithFallbacks (NewStoreWithFallbacks primary fs1) fs2) a w
      = Get (NewStoreWithFallbacks primary (fs1 ++ fs2)) a w)
  /\ (forall cred w,
      Put (NewStoreWithFallbacks (NewStoreWithFallbacks primary fs1) fs2)
          a cred w
      = Put (NewStoreWithFallbacks primary (fs1 ++ fs2)) a cred w)
  /\ (forall w,
      Delete (NewStoreWithFallbacks (NewStoreWithFallbacks primary fs1) fs2)
             a w
      = Delete (NewStoreWithFallbacks primary (fs1 ++ fs2)) a w).
Proof.
  destruct fs1 as [|f fs1].
  - repeat split.
  - destruct fs2 as [|g fs2].
    + rewrite app_nil_r. repeat split.
    + split; [|split; intros; reflexivity].
      intros w. unfold NewStoreWithFallbacks.
      cbn [length Nat.eqb app].
      change (Get (storeWithFallbacks_Store ?sf) a w)
        with (Get_loop (stores sf) a w).
      cbn [stores].
      apply (Get_loop_nested (primary :: f :: fs1)).
Qed.

(** X2. A chain's Get never returns a credential together with an
    error: when the error is not nil the credential is the empty one. *)
Theorem chain_Get_error_means_empty sf a w cred e w' :
  Get (storeWithFallbacks_Store sf) a w = Ok (cred, Some e) w' ->
  cred = EmptyCredential.
Proof.
  destruct sf as [ss]. cbn [Get storeWithFallbacks_Store].
  unfold storeWithFallbacks_Get. cbn [stores].
  revert w. induction ss as [|s ss IH]; intros w H.
  - discriminate.
  - simpl in H. unfold bind in H.
    destruct (Get s a w) as [[c [e0|]] w1|msg]; try discriminate.
    + injection H as <- _ _. reflexivity.
    + destruct (Credential_neq c EmptyCredential).
      * discriminate.
      * eapply IH; eassumption.
Qed.

(** X3. Every answer of a chain's Get is accounted for by its stores:
    either all of them missed; or the stores before some store missed
    and that store returned the (non-empty) credential of the answer;
    or the stores before some store missed and that store returned the
    error of the answer. *)
Theorem chain_Get_inversion ss a : forall w cred err w',
  Get (storeWithFallbacks_Store {| stores := ss |}) a w = Ok (cred, err) w' ->
  (err = None /\ cred = EmptyCredential /\ misses a ss w w')
  \/ exists pre s post w1,
      ss = pre ++ s :: post
      /\ misses a pre w w1
      /\ ((err = None /\ cred <> EmptyCredential
           /\ Get s a w1 = Ok (cred, None) w')
          \/ (exists c e, err = Some e /\ cred = EmptyCredential
                          /\ Get s a w1 = Ok (c, Some e) w')).
Proof.
  cbn [Get storeWithFallbacks_Store].
  unfold storeWithFallbacks_Get. cbn [stores].
  induction ss as [|s ss IH]; intros w cred err w' H.
  - injection H as <- <- <-. left. repeat split. constructor.
  - simpl in H. unfold bind in H.
    destruct (Get s a w) as [[c [e|]] w1|msg] eqn:Hs; try discriminate.
    + injection H as <- <- <-. right.
      exists [], s, ss, w. split; [reflexivity|]. split; [constructor|].
      right. exists c, e. auto.
    + destruct (Credential_neq c EmptyCredential) eqn:Hc.
      * injection H as <- <- <-. right.
        exists [], s, ss, w. split; [reflexivity|]. split; [constructor|].
        left. apply Credential_neq_true in Hc. auto.
      * assert (c = EmptyCredential) as ->.
        { apply Credential_eqb_eq. unfold Credential_neq in Hc.
          now apply negb_false_iff in Hc. }
        destruct (IH _ _ _ _ H)
          as [(He & Hcr & Hm) | (pre & s' & post & w2 & -> & Hm & Hcase)].
        -- left. repeat split; auto. econstructor; eassumption.
        -- right. exists (s :: pre), s', post, w2.
           split; [reflexivity|]. split; [econstructor; eassumption|].
           exact Hcase.
Qed.

(** X4. A chain's Get does not panic by itself: if none of its stores
    panics on Get, neither does the chain, whatever its length, the
    empty list included. *)
Theorem chain_Get_no_panic ss a :
  Forall (fun s => forall a' w', panics (Get s a' w') = false) ss ->
  forall w, panics (Get (storeWithFallbacks_Store {| stores := ss |}) a w)
            = false.
Proof.
  cbn [Get storeWithFallbacks_Store].
  unfold storeWithFallbacks_Get. cbn [stores].
  induction 1 as [|s ss Hs _ IH]; intros w.
  - reflexivity.
  - simpl. unfold bind. specialize (Hs a w).
    destruct (Get s a w) as [[c [e|]] w1|msg]; try discriminate.
    + reflexivity.
    + destruct (Credential_neq c EmptyCredential); [reflexivity | apply IH].
Qed.

(** X5. A Delete on a chain removes nothing from the fallbacks: after
    a successful Delete, a Get on the same chain still returns the
    credential of the first fallback that has one, once the stores
    before it miss. *)
Theorem chain_Delete_then_Get primary pre s post a w w1 w2 w3 cred :
  Delete (storeWithFallbacks_Store
            {| stores := primary :: pre ++ s :: post |}) a w = Ok None w1 ->
  misses a (primary :: pre) w1 w2 ->
  Get s a w2 = Ok (cred, None) w3 ->
  cred <> EmptyCredential ->
  Delete primary a w = Ok None w1
  /\ Get (storeWithFallbacks_Store
            {| stores := primary :: pre ++ s :: post |}) a w1
     = Ok (cred, None) w3.
Proof.
  intros Hd Hm Hs Hne. split; [exact Hd|].
  cbn [Get storeWithFallbacks_Store].
  unfold storeWithFallbacks_Get. cbn [stores].
  change (primary :: pre ++ s :: post) with ((primary :: pre) ++ s :: post).
  rewrite (Get_loop_skips_misses Hm).
  now apply Get_loop_found.
Qed.

End FallbacksMore.

(** ** dynamicStore: errors, the Once over time, construction *)
Section DynamicMore.

Context {Config Helpers : Type} `{!Externals Config Helpers}.

Implicit Types (w : World Config Helpers) (ds : dynamicStore) (a : string).
Implicit Types (cred : Credential).

(** X6. What a Put returns is decided by the backend's Put, the Once
    and SetCredentialsStore, case by case. If the backend fails, its
    error comes back unchanged and nothing else happens. If it succeeds
    and the Once has fired, nil comes back and nothing else happens. If
    it succeeds, the Once has not fired and no default was detected,
    nil comes back and the Once fires. If it succeeds, the Once has not
    fired and a default was detected, SetCredentialsStore is called and
    the Once fires: nil comes back when that call succeeds, and when it
    fails with [e] the Put returns [e] wrapped, never nil. *)
Theorem dynamicStore_Put_error ds a cred w :
  exists err w1,
    Put (getStore ds a w) a cred w = Ok err w1
    /\ Put (dynamicStore_Store ds) a cred w
       = match err with
         | Some e => Ok (Some e) w1
         | None =>
             if w_setCredsStoreOnce w then Ok None w1
             else if nonempty (detectedCredsStore ds) then
               let res := SetCredentialsStore (w_config w1)
                                              (detectedCredsStore ds) in
               Ok match fst res with
                  | Some e => Some (Errorf_w "failed to set credsStore" e)
                  | None => None
                  end
                  (with_once true
                     (with_config (snd res)
                        (record_call
                           (CallSetCredentialsStore (detectedCredsStore ds))
                           w1)))
             else Ok None (with_once true w1)
         end
    /\ (forall e,
          err = None ->
          w_setCredsStoreOnce w = false ->
          detectedCredsStore ds <> EmptyString ->
          fst (SetCredentialsStore (w_config w1) (detectedCredsStore ds))
          = Some e ->
          exists w2,
            Put (dynamicStore_Store ds) a cred w
            = Ok (Some (Errorf_w "failed to set credsStore" e)) w2)
    /\ (err <> None
        \/ w_setCredsStoreOnce w = true
        \/ detectedCredsStore ds = EmptyString
        \/ fst (SetCredentialsStore (w_config w1) (detectedCredsStore ds))
           = None ->
        exists w2, Put (dynamicStore_Store ds) a cred w = Ok err w2)
    /\ (err <> None \/ w_setCredsStoreOnce w = true ->
        Put (dynamicStore_Store ds) a cred w = Ok err w1).
Proof.
  cbn [Put dynamicStore_Store].
  rewrite dynamicStore_Put_eq, getStore_selected.
  destruct (backend_Put_ok (selected ds a w) a cred w)
    as (err & w1 & Hput & _ & Ho1).
  rewrite Hput. exists err, w1. split; [reflexivity|].
  assert (Heq :
    match err with
    | Some e => Ok (Some e) w1
    | None => Once_Do (setCredsStore_func ds) None w1
    end
    = match err with
      | Some e => Ok (Some e) w1
      | None =>
          if w_setCredsStoreOnce w then Ok None w1
          else if nonempty (detectedCredsStore ds) then
            let res := SetCredentialsStore (w_config w1)
                                           (detectedCredsStore ds) in
            Ok match fst res with
               | Some e => Some (Errorf_w "failed to set credsStore" e)
               | None => None
               end
               (with_once true
                  (with_config (snd res)
                     (record_call
                        (CallSetCredentialsStore (detectedCredsStore ds))
                        w1)))
          else Ok None (with_once true w1)
      end).
  { destruct err as [e|]; [reflexivity|].
    unfold Once_Do. rewrite Ho1.
    destruct (w_setCredsStoreOnce w); [reflexivity|].
    rewrite setCredsStore_func_run.
    destruct (nonempty (detectedCredsStore ds)); reflexivity. }
  split; [exact Heq|]. rewrite Heq. clear Heq.
  split; [|split].
  - intros e -> Ho Hd Hs. apply nonempty_true in Hd.
    rewrite Ho, Hd. cbv zeta. rewrite Hs. eexists; reflexivity.
  - intros Hcase. destruct err as [e|]; [eexists; reflexivity|].
    destruct (w_setCredsStoreOnce w) eqn:Ho; [eexists; reflexivity|].
    destruct (nonempty (detectedCredsStore ds)) eqn:Hd;
      [|eexists; reflexivity].
    destruct Hcase as [Hc | [Hc | [Hc | Hc]]].
    + congruence.
    + discriminate.
    + apply nonempty_false in Hc. congruence.
    + cbv zeta. rewrite Hc. eexists; reflexivity.
  - intros [Hc | Hc].
    + destruct err; [reflexivity | congruence].
    + rewrite Hc. destruct err; reflexivity.
Qed.

(** X7. Once the Once has fired it stays fired: over any further
    sequence of requests, whether their backends succeed or fail,
    SetCredentialsStore is not called again. *)
Theorem Once_stays_fired ds ops w :
  w_setCredsStoreOnce w = true ->
  exists rs w',
    run (dynamicStore_Store ds) ops w = Ok rs w'
    /\ w_setCredsStoreOnce w' = true
    /\ setCredsStore_count w' = setCredsStore_count w.
Proof.
  intros Ho.
  destruct (run_budget ds ops w) as (rs & w' & Hrun & Hb & Hm).
  exists rs, w'. split; [assumption|].
  unfold budget in Hb. rewrite Ho in Hb.
  destruct (w_setCredsStoreOnce w'); split; auto; lia.
Qed.

(** With a detected default every request goes to a native helper,
    which leaves the config object and the Once alone and is not a
    call to SetCredentialsStore. *)
Lemma native_request_keeps ds a w :
  detectedCredsStore ds <> EmptyString ->
  (forall r w', Get (getStore ds a w) a w = Ok r w' ->
     w_config w' = w_config w
     /\ w_setCredsStoreOnce w' = w_setCredsStoreOnce w
     /\ setCredsStore_count w' = setCredsStore_count w)
  /\ (forall r w', Delete (getStore ds a w) a w = Ok r w' ->
     w_config w' = w_config w
     /\ w_setCredsStoreOnce w' = w_setCredsStoreOnce w
     /\ setCredsStore_count w' = setCredsStore_count w)
  /\ (forall cred r w', Put (getStore ds a w) a cred w = Ok r w' ->
     w_config w' = w_config w
     /\ w_setCredsStoreOnce w' = w_setCredsStoreOnce w
     /\ setCredsStore_count w' = setCredsStore_count w
     /\ w_calls w' = w_calls w ++ [backend_call (selected ds a w) MPut a]).
Proof.
  intros Hd. destruct (selected_native ds a w Hd) as (name & Hsel).
  rewrite getStore_selected, Hsel. cbn [backend_Store backend_call].
  cbn [Get Put Delete NewNativeStore].
  split; [|split]; intros; rewrite on_helpers_run in *;
    match goal with H : Ok _ _ = Ok _ _ |- _ => injection H as _ <- end;
    repeat split;
    change (setCredsStore_count (with_helpers ?h ?x))
      with (setCredsStore_count x);
    rewrite count_record_call; simpl; lia.
Qed.

Lemma no_write_yet_keeps ds w w' :
  detectedCredsStore ds <> EmptyString ->
  no_write_yet ds w w' ->
  w_config w' = w_config w
  /\ w_setCredsStoreOnce w' = w_setCredsStoreOnce w
  /\ setCredsStore_count w' = setCredsStore_count w.
Proof.
  intros Hd. induction 1 as [w | a w r w1 w2 HG _ IH | a w r w1 w2 HD _ IH
                            | a cred w e wb r w1 w2 Hb HP _ IH].
  - auto.
  - cbn [Get dynamicStore_Store] in HG. rewrite dynamicStore_Get_eq in HG.
    destruct (proj1 (native_request_keeps ds a w Hd) _ _ HG) as (H1 & H2 & H3).
    destruct IH as (I1 & I2 & I3). repeat split; congruence.
  - cbn [Delete dynamicStore_Store] in HD.
    rewrite dynamicStore_Delete_eq in HD.
    destruct (proj1 (proj2 (native_request_keeps ds a w Hd)) _ _ HD)
      as (H1 & H2 & H3).
    destruct IH as (I1 & I2 & I3). repeat split; congruence.
  - cbn [Put dynamicStore_Store] in HP.
    rewrite dynamicStore_Put_eq, Hb in HP. injection HP as _ <-.
    destruct (proj2 (proj2 (native_request_keeps ds a w Hd)) _ _ _ Hb)
      as (H1 & H2 & H3 & _).
    destruct IH as (I1 & I2 & I3). repeat split; congruence.
Qed.

(** X8. On a config without authentication and a platform with a
    default helper, the first Put whose backend write succeeds, coming
    after any requests to Get and Delete and any Puts whose backend
    write failed, is the one that persists: until then
    SetCredentialsStore has not been called; that Put calls it with
    exactly the platform default, right after its backend call; the
    config object is then what that call left of the loaded config; the
    Once has fired; and the Put returns nil or the wrapped failure of
    that call. *)
Theorem first_Put_persists_default path opts platform cfg :
  Load path = inl cfg ->
  IsAuthConfigured cfg = false ->
  getDefaultHelperSuffix platform <> EmptyString ->
  exists ds w0,
    NewStore path opts platform = inl (ds, w0)
    /\ detectedCredsStore ds = getDefaultHelperSuffix platform
    /\ forall w a cred w1,
        no_write_yet ds w0 w ->
        Put (getStore ds a w) a cred w = Ok None w1 ->
        setCredsStore_count w = 0
        /\ exists r w2,
            Put (dynamicStore_Store ds) a cred w = Ok r w2
            /\ w_calls w2
               = w_calls w
                 ++ [backend_call (selected ds a w) MPut a;
                     CallSetCredentialsStore
                       (getDefaultHelperSuffix platform)]
            /\ setCredsStore_count w2 = 1
            /\ w_config w2
               = snd (SetCredentialsStore
                        cfg (getDefaultHelperSuffix platform))
            /\ r = match fst (SetCredentialsStore
                                cfg (getDefaultHelperSuffix platform)) with
                   | Some e => Some (Errorf_w "failed to set credsStore" e)
                   | None => None
                   end
            /\ w_setCredsStoreOnce w2 = true.
Proof.
  intros HL HA Hd.
  exists {| options := opts;
            detectedCredsStore := getDefaultHelperSuffix platform |},
         (mkWorld cfg platform false []).
  split; [unfold NewStore; rewrite HL, HA; reflexivity|].
  split; [reflexivity|].
  intros w a cred w1 Hquiet Hput.
  set (ds := {| options := opts;
                detectedCredsStore := getDefaultHelperSuffix platform |}) in *.
  assert (Hds : detectedCredsStore ds <> EmptyString) by exact Hd.
  assert (Hn : nonempty (detectedCredsStore ds) = true)
    by now apply nonempty_true.
  destruct (no_write_yet_keeps Hds Hquiet) as (Kc & Ko & Kn).
  cbn [w_config w_setCredsStoreOnce] in Kc, Ko.
  change (setCredsStore_count (mkWorld cfg platform false [])) with 0 in Kn.
  destruct (proj2 (proj2 (native_request_keeps ds a w Hds)) _ _ _ Hput)
    as (Pc & Po & Pn & Pcalls).
  split; [exact Kn|].
  cbn [Put dynamicStore_Store].
  rewrite dynamicStore_Put_eq, Hput.
  unfold Once_Do. rewrite Po, Ko.
  rewrite setCredsStore_func_run, Hn. cbv zeta.
  rewrite Pc, Kc.
  eexists; eexists. split; [reflexivity|].
  split; [cbn [w_calls with_once with_config record_call];
          rewrite Pcalls, <- app_assoc; reflexivity|].
  split; [|repeat split].
  change (setCredsStore_count (with_once true (with_config ?c ?x)))
    with (setCredsStore_count x).
  rewrite count_record_call, Pn, Kn. reflexivity.
Qed.

(** X9. Persisting the detected default does not change the routing:
    for an address whose per-address helper is the same in two configs,
    one without a global helper and one whose global helper is the
    detected default, the resolver builds the same backend. *)
Theorem routing_stable_under_persist ds a w w' :
  GetCredentialHelper (w_config w') a = GetCredentialHelper (w_config w) a ->
  CredentialsStore (w_config w) = EmptyString ->
  CredentialsStore (w_config w') = detectedCredsStore ds ->
  getStore ds a w' = getStore ds a w.
Proof.
  intros Hh Hg Hg'.
  unfold getStore, getHelperSuffix. rewrite Hh, Hg, Hg'.
  destruct (nonempty (GetCredentialHelper (w_config w) a)); [reflexivity|].
  change (nonempty EmptyString) with false. cbv iota zeta.
  destruct (nonempty (detectedCredsStore ds)) eqn:Hd; rewrite ?Hd;
    reflexivity.
Qed.

(** X10. NewStore fails exactly when config.Load fails, with Load's
    error unchanged; otherwise the resolver keeps the given options,
    starts with its Once not fired, and its detected default is the
    platform default if the config has no authentication and empty if
    it has. *)
Theorem NewStore_outcome path opts platform :
  (forall e, NewStore path opts platform = inr e <-> Load path = inr e)
  /\ (forall cfg, Load path = inl cfg ->
        exists ds,
          NewStore path opts platform
          = inl (ds, mkWorld cfg platform false [])
          /\ options ds = opts
          /\ detectedCredsStore ds
             = if IsAuthConfigured cfg then EmptyString
               else getDefaultHelperSuffix platform).
Proof.
  unfold NewStore. split.
  - intros e. destruct (Load path) as [cfg|e0].
    + split; discriminate.
    + split; intros H; injection H as ->; reflexivity.
  - intros cfg ->.
    destruct (IsAuthConfigured cfg); eexists; repeat split.
Qed.

End DynamicMore.

(** ** The default docker config file *)
Section DockerTheory.

Context {Config Helpers : Type} `{!Externals Config Helpers} `{!OS}.

Lemma getDockerConfigPath_run :
  getDockerConfigPath
  = if nonempty (Getenv dockerConfigDirEnv)
    then inl (filepath_Join [Getenv dockerConfigDirEnv; dockerConfigFileName])
    else match UserHomeDir with
         | inr err =>
             inr (Errorf_w "failed to get user home directory" err)
         | inl homeDir =>
             inl (filepath_Join
                    [filepath_Join [homeDir; dockerConfigFileDir];
                     dockerConfigFileName])
         end.
Proof.
  unfold getDockerConfigPath, nonempty.
  destruct (String.eqb (Getenv dockerConfigDirEnv) EmptyString);
    [|reflexivity].
  destruct UserHomeDir; reflexivity.
Qed.

(** X11. When DOCKER_CONFIG is set, the config path is
    $DOCKER_CONFIG/config.json and the home directory plays no part,
    even if it cannot be determined. The only failure of
    getDockerConfigPath is DOCKER_CONFIG unset together with a failed
    home directory lookup, reported as that error wrapped. *)
Theorem getDockerConfigPath_outcome :
  (Getenv dockerConfigDirEnv <> EmptyString ->
   getDockerConfigPath
   = inl (filepath_Join [Getenv dockerConfigDirEnv; dockerConfigFileName]))
  /\ (forall homeDir,
        Getenv dockerConfigDirEnv = EmptyString ->
        UserHomeDir = inl homeDir ->
        getDockerConfigPath
        = inl (filepath_Join [filepath_Join [homeDir; dockerConfigFileDir];
                              dockerConfigFileName]))
  /\ (forall e,
        getDockerConfigPath = inr e
        <-> Getenv dockerConfigDirEnv = EmptyString
            /\ exists e0,
                UserHomeDir = inr e0
                /\ e = Errorf_w "failed to get user home directory" e0).
Proof.
  rewrite getDockerConfigPath_run.
  split; [|split].
  - intros Hne. apply nonempty_true in Hne. rewrite Hne. reflexivity.
  - intros h He Hh. apply nonempty_false in He. rewrite He, Hh. reflexivity.
  - intros e. destruct (nonempty (Getenv dockerConfigDirEnv)) eqn:Hn.
    + split; [discriminate|]. intros [He _].
      apply nonempty_false in He. congruence.
    + apply nonempty_false in Hn. destruct UserHomeDir as [h|e0].
      * split; [discriminate|]. intros (_ & e1 & Hu & _). discriminate.
      * split.
        -- intros Hr. injection Hr as <-. split; [assumption|].
           exists e0. auto.
        -- intros (_ & e1 & Hu & ->). injection Hu as ->. reflexivity.
Qed.

(** X12. NewStoreFromDocker fails in two ways only: with the wrapped
    home directory error, in which case no config file is loaded; or
    with the error of config.Load on the docker config path, unchanged.
    With DOCKER_CONFIG set it is NewStore on
    $DOCKER_CONFIG/config.json. *)
Theorem NewStoreFromDocker_outcome opt (platform : Helpers) :
  (forall e,
      NewStoreFromDocker opt platform = inr e
      <-> getDockerConfigPath = inr e
          \/ exists configPath,
              getDockerConfigPath = inl configPath
              /\ Load configPath = inr e)
  /\ (Getenv dockerConfigDirEnv <> EmptyString ->
      NewStoreFromDocker opt platform
      = NewStore (filepath_Join [Getenv dockerConfigDirEnv;
                                 dockerConfigFileName]) opt platform).
Proof.
  unfold NewStoreFromDocker. split.
  - intros e. destruct getDockerConfigPath as [p|e0].
    + unfold NewStore. destruct (Load p) as [cfg|e1] eqn:HL.
      * split; [discriminate|].
        intros [Hr | (p' & Hp & HL')]; [discriminate|].
        injection Hp as <-. congruence.
      * split.
        -- intros Hr. injection Hr as <-. right. exists p. auto.
        -- intros [Hr | (p' & Hp & HL')]; [discriminate|].
           injection Hp as <-. congruence.
    + split.
      * intros Hr. injection Hr as <-. now left.
      * intros [Hr | (p' & Hp & _)]; [|discriminate].
        injection Hr as <-. reflexivity.
  - intros Hne. rewrite getDockerConfigPath_run.
    apply nonempty_true in Hne. rewrite Hne. reflexivity.
Qed.

End DockerTheory.

(** ** Concurrent callers: who sees the error, termination, and the
    sequential case *)
Section ConcurrentMoreTheory.

Context {Config Helpers : Type} `{!Externals Config Helpers}.

Implicit Types (ds : dynamicStore) (st : Conc Config Helpers).
Implicit Types (g : Goroutine) (p : pc) (gs : list Goroutine).













Lemma interleave_app ds s1 s2 : forall st,
  interleave ds (s1 ++ s2) st = interleave ds s2 (interleave ds s1 st).
Proof.
  induction s1 as [|i s1 IH]; intros st; simpl; [reflexivity|].
  destruct (step ds i st); apply IH.
Qed.

(** Every move uses up one of the moves the goroutine has left. *)
Lemma step_steps_left ds i st st' :
  step ds i st = Some st' ->
  tally steps_left (c_goroutines st') < tally steps_left (c_goroutines st).
Proof.
  unfold step. intros Hstep.
  destruct (nth_error (c_goroutines st) i) as [g|] eqn:Hn; [|discriminate].
  destruct (g_pc g) eqn:Epc; try discriminate;
    repeat match type of Hstep with
           | context [match ?x with _ => _ end] => destruct x
           end;
    try discriminate; injection Hstep as <-;
    match goal with
    | |- context [move _ _ ?p _ _ _] =>
        pose proof (tally_update steps_left _ _ p Hn) as T
    end;
    rewrite Epc in T; simpl in *; lia.
Qed.

Lemma moves_bounded ds sched : forall st,
  moves ds sched st
  + tally steps_left (c_goroutines (interleave ds sched st))
  <= tally steps_left (c_goroutines st).
Proof.
  induction sched as [|i rest IH]; intros st; simpl; [lia|].
  destruct (step ds i st) as [st'|] eqn:Hs; [|apply IH].
  specialize (IH st'). apply step_steps_left in Hs. lia.
Qed.

Lemma unfinished_exists st :
  all_finished st = false ->
  exists i g, nth_error (c_goroutines st) i = Some g
              /\ finished (g_pc g) = false.
Proof.
  unfold all_finished. induction (c_goroutines st) as [|h t IH]; simpl.
  - discriminate.
  - destruct (finished (g_pc h)) eqn:Eh; simpl.
    + intros Ht. destruct (IH Ht) as (i & g & Hi & Hg).
      exists (S i), g. auto.
    + intros _. exists 0, h. auto.
Qed.

Lemma can_finish ds c0 : forall n st,
  tally steps_left (c_goroutines st) <= n ->
  Inv ds c0 st ->
  exists sched, length sched <= n
                /\ all_finished (interleave ds sched st) = true.
Proof.
  induction n as [|n IH]; intros st Hn HI.
  - destruct (all_finished st) eqn:Ef; [exists []; auto|].
    destruct (unfinished_exists st Ef) as (i & g & Hi & Hg).
    assert (Hp : exists j st', step ds j st = Some st')
      by (eapply Inv_progress; eassumption).
    destruct Hp as (j & st' & Hs).
    apply step_steps_left in Hs. lia.
  - destruct (all_finished st) eqn:Ef; [exists []; split; [simpl; lia | auto]|].
    destruct (unfinished_exists st Ef) as (i & g & Hi & Hg).
    assert (Hp : exists j st', step ds j st = Some st')
      by (eapply Inv_progress; eassumption).
    destruct Hp as (j & st' & Hs).
    pose proof Hs as Hlt. apply step_steps_left in Hlt.
    destruct (IH st') as (sched & Hlen & Hfin);
      [lia | eapply step_Inv; eassumption |].
    exists (j :: sched). split; [simpl; lia|].
    simpl. rewrite Hs. exact Hfin.
Qed.

Lemma spawn_steps_left (w : World Config Helpers) calls :
  tally steps_left (c_goroutines (spawn w calls)) = 7 * length calls.
Proof.
  unfold tally, spawn; simpl.
  induction calls as [|c cs IH]; simpl; [reflexivity|].
  rewrite IH. lia.
Qed.

(** X14. N concurrent Puts on a resolver whose Once has not fired
    always terminate: no schedule makes more than 7 N moves, from every
    point some schedule brings every call to its return, and then
    every call has returned an answer (none has panicked). *)
Theorem concurrent_Put_terminates ds (w0 : World Config Helpers) calls :
  w_setCredsStoreOnce w0 = false ->
  (forall sched, moves ds sched (spawn w0 calls) <= 7 * length calls)
  /\ (forall sched, exists more,
        length more <= 7 * length calls
        /\ all_finished (interleave ds (sched ++ more) (spawn w0 calls))
           = true)
  /\ (forall sched,
        all_finished (interleave ds sched (spawn w0 calls)) = true ->
        Forall (fun g => reply_of (g_pc g) <> None)
               (c_goroutines (interleave ds sched (spawn w0 calls)))).
Proof.
  intros Ho. split; [|split].
  - intros sched.
    pose proof (moves_bounded ds sched (spawn w0 calls)) as Hb.
    rewrite spawn_steps_left in Hb. lia.
  - intros sched.
    assert (HI : Inv ds (setCredsStore_count w0)
                     (interleave ds sched (spawn w0 calls)))
      by (apply interleave_Inv, spawn_Inv; assumption).
    pose proof (moves_bounded ds sched (spawn w0 calls)) as Hb.
    rewrite spawn_steps_left in Hb.
    assert (Hf : exists more,
               length more <= 7 * length calls
               /\ all_finished
                    (interleave ds more
                       (interleave ds sched (spawn w0 calls))) = true)
      by (eapply can_finish; [lia | eassumption]).
    destruct Hf as (more & Hlen & Hfin).
    exists more. split; [assumption|].
    rewrite interleave_app. exact Hfin.
  - intros sched Hfin.
    assert (HI : Inv ds (setCredsStore_count w0)
                     (interleave ds sched (spawn w0 calls)))
      by (apply interleave_Inv, spawn_Inv; assumption).
    apply Forall_forall. intros g Hin.
    unfold all_finished in Hfin. rewrite forallb_forall in Hfin.
    specialize (Hfin g Hin).
    pose proof (tally_In has_panicked _ _ Hin) as Hp.
    rewrite (inv_panic HI) in Hp.
    destruct (g_pc g); simpl in *; try discriminate; lia.
Qed.

Lemma nth_error_update {A} (l : list A) : forall i x,
  i < length l -> nth_error (update i x l) i = Some x.
Proof.
  induction l as [|h t IH]; intros [|j] x Hlt; simpl in *; try lia.
  - reflexivity.
  - apply IH. lia.
Qed.

Lemma update_update {A} (l : list A) : forall i x y,
  update i x (update i y l) = update i x l.
Proof.
  induction l as [|h t IH]; intros [|j] x y; simpl; try reflexivity.
  f_equal. apply IH.
Qed.

Lemma update_app_length {A} (l1 l2 : list A) x y :
  update (length l1) x (l1 ++ y :: l2) = l1 ++ x :: l2.
Proof.
  induction l1 as [|h t IH]; simpl; [reflexivity|]. f_equal. exact IH.
Qed.

(** One move of the goroutine that [solo] singles out. *)
Lemma step_solo ds i g gs p (w : World Config Helpers) l :
  i < length gs ->
  step ds i (solo i g gs p w l)
  = match p with
    | AtPut =>
        match (s <- gets (getStore ds (g_serverAddress g)) ;;
               Put s (g_serverAddress g) (g_cred g)) w with
        | Ok (Some e) w' => Some (solo i g gs (ReturnedEarly e) w' l)
        | Ok None w' => Some (solo i g gs AtDo w' l)
        | Go.Panic msg => Some (solo i g gs (Panicked msg) w l)
        end
    | AtDo =>
        if w_setCredsStoreOnce w
        then Some (solo i g gs (Returned None) w l)
        else Some (solo i g gs AtLock w l)
    | AtLock => if l then None else Some (solo i g gs Locked w true)
    | Locked =>
        if w_setCredsStoreOnce w
        then Some (solo i g gs (AtUnlock None) w l)
        else Some (solo i g gs AtFunc w l)
    | AtFunc =>
        match setCredsStore_func ds None w with
        | Ok returnErr w' => Some (solo i g gs (AtStoreDone returnErr) w' l)
        | Go.Panic msg => Some (solo i g gs (Panicked msg) w l)
        end
    | AtStoreDone r => Some (solo i g gs (AtUnlock r) (with_once true w) l)
    | AtUnlock r => Some (solo i g gs (Returned r) w false)
    | ReturnedEarly _ | Returned _ | Panicked _ => None
    end.
Proof.
  intros Hlt. unfold step, solo.
  cbn [c_world c_locked c_goroutines].
  rewrite (nth_error_update _ _ Hlt).
  destruct p; cbn [g_pc at_pc g_serverAddress g_cred]; try reflexivity;
    unfold move; cbn [c_goroutines c_world c_locked];
    rewrite ?update_update;
    repeat match goal with
           | |- context [match ?x with _ => _ end] => destruct x
           end;
    rewrite ?update_update; reflexivity.
Qed.

(** Seven picks bring a goroutine from the start of Put to its
    return, when nobody else moves and the mutex is free; the world
    and the answer are those of the sequential Put. *)
Lemma solo_Put ds i g gs (w : World Config Helpers) :
  i < length gs ->
  exists p r w',
    interleave ds (repeat i 7) (solo i g gs AtPut w false)
    = solo i g gs p w' false
    /\ reply_of p = Some r
    /\ dynamicStore_Put ds (g_serverAddress g) (g_cred g) w = Ok r w'.
Proof.
  intros Hlt. cbn [repeat interleave].
  rewrite dynamicStore_Put_eq.
  rewrite (step_solo ds g gs AtPut w false Hlt).
  destruct (backend_step_ok ds (g_serverAddress g) (g_cred g) w)
    as (err & w1 & Hb & _).
  rewrite Hb. unfold bind, gets in Hb. rewrite Hb.
  destruct err as [e|].
  - repeat rewrite (step_solo ds g gs (ReturnedEarly e) w1 false Hlt).
    exists (ReturnedEarly e), (Some e), w1. auto.
  - rewrite (step_solo ds g gs AtDo w1 false Hlt).
    unfold Once_Do.
    destruct (w_setCredsStoreOnce w1) eqn:Eo.
    + repeat rewrite (step_solo ds g gs (Returned None) w1 false Hlt).
      exists (Returned None), None, w1. auto.
    + rewrite (step_solo ds g gs AtLock w1 false Hlt).
      rewrite (step_solo ds g gs Locked w1 true Hlt), Eo.
      rewrite (step_solo ds g gs AtFunc w1 true Hlt).
      destruct (setCredsStore_func_ok ds w1) as (r & w2 & Hf & _).
      rewrite Hf.
      rewrite (step_solo ds g gs (AtStoreDone r) w2 true Hlt).
      rewrite (step_solo ds g gs (AtUnlock r) (with_once true w2) true Hlt).
      exists (Returned r), r, (with_once true w2). auto.
Qed.

Lemma one_by_one_run ds calls : forall done (w : World Config Helpers),
  exists rs w' gs',
    run (dynamicStore_Store ds) (Puts calls) w = Ok rs w'
    /\ interleave ds (one_by_one (length done) (length calls))
                  (mkConc w false (done ++ map (goroutine_at AtPut) calls))
       = mkConc w' false (done ++ gs')
    /\ map Put_reply gs' = map Some rs.
Proof.
  induction calls as [|ac calls IH]; intros done w.
  - exists [], w, []. repeat split.
  - set (g := goroutine_at AtPut ac).
    set (rest := map (goroutine_at AtPut) calls).
    assert (Hlt : length done < length (done ++ g :: rest))
      by (rewrite length_app; simpl; lia).
    destruct (solo_Put ds g _ w Hlt) as (p & r & w1 & Hsolo & Hr & HP).
    unfold solo in Hsolo. rewrite !update_app_length in Hsolo.
    change (at_pc AtPut g) with g in Hsolo.
    destruct (IH (done ++ [at_pc p g]) w1) as (rs & w' & gs' & Hrun & Hint & Hrs).
    rewrite length_app in Hint. simpl in Hint.
    rewrite Nat.add_1_r in Hint. rewrite <- !app_assoc in Hint.
    exists (ReplyPut r :: rs), w', (at_pc p g :: gs').
    split; [|split].
    + cbn [Puts map run exec]. unfold bind at 1. unfold bind at 1.
      cbn [Put dynamicStore_Store].
      change (fst ac) with (g_serverAddress g).
      change (snd ac) with (g_cred g).
      rewrite HP. unfold ret at 1.
      fold (Puts calls). unfold bind. rewrite Hrun. reflexivity.
    + change (one_by_one (length done) (length (ac :: calls)))
        with (repeat (length done) 7
              ++ one_by_one (S (length done)) (length calls)).
      rewrite interleave_app.
      change (map (goroutine_at AtPut) (ac :: calls)) with (g :: rest).
      rewrite Hsolo. exact Hint.
    + cbn [map]. rewrite Hrs. unfold Put_reply at 1.
      cbn [g_pc at_pc]. rewrite Hr. reflexivity.
Qed.

(** X15. When the scheduler runs the goroutines one after the other,
    each to its return, the concurrent model does what the sequential
    resolver does: the world is the one a single caller reaches by
    issuing the same Puts in order, the mutex is free, and every
    goroutine has returned the reply the single caller got. *)
Theorem one_by_one_is_sequential ds (w : World Config Helpers) calls :
  exists rs w',
    run (dynamicStore_Store ds) (Puts calls) w = Ok rs w'
    /\ c_world (interleave ds (one_by_one 0 (length calls)) (spawn w calls))
       = w'
    /\ c_locked (interleave ds (one_by_one 0 (length calls)) (spawn w calls))
       = false
    /\ map Put_reply
           (c_goroutines
              (interleave ds (one_by_one 0 (length calls)) (spawn w calls)))
       = map Some rs.
Proof.
  destruct (one_by_one_run ds calls [] w) as (rs & w' & gs' & Hrun & Hint & Hrs).
  exists rs, w'. split; [assumption|].
  change (spawn w calls)
    with (mkConc w false ([] ++ map (goroutine_at AtPut) calls)).
  change 0 with (length (@nil Goroutine)).
  rewrite Hint. auto.
Qed.

End ConcurrentMoreTheory.

(** ** The further properties on concrete stores *)
Section MoreInstances.

Import Fixture DockerFixture FlakyFixture.

(** With no fallbacks the primary's answer comes back as it is, a
    credential next to an error included; with a fallback the
    credential is dropped. *)
Example error_shape_example :
  Get (NewStoreWithFallbacks B1_down []) registry []
  = Ok (alice, Some ErrB1) ["B1"]
  /\ Get (NewStoreWithFallbacks B1_down [B2]) registry []
     = Ok (EmptyCredential, Some ErrB1) ["B1"].
Proof. split; reflexivity. Qed.

(** Two racing Puts on a read-only config: the goroutine that runs
    the closure returns the wrapped error, the other one nil. *)
Example racing_error_example :
  map g_pc (c_goroutines
              (interleave ds_pass racy (spawn (world readonly linux)
                                              two_calls)))
  = [Returned (Some (Errorf_w "failed to set credsStore" ErrReadOnly));
     Returned None].
Proof. reflexivity. Qed.

Lemma chain_Get_error_means_empty_witness :
  Get (storeWithFallbacks_Store {| stores := [B0; B1_down; B2] |})
      registry []
  = Ok (EmptyCredential, Some ErrB1) ["B0"; "B1"]
  /\ EmptyCredential = EmptyCredential.
Proof.
  assert (H : Get (storeWithFallbacks_Store
                     {| stores := [B0; B1_down; B2] |}) registry []
              = Ok (EmptyCredential, Some ErrB1) ["B0"; "B1"])
    by reflexivity.
  split; [exact H|].
  exact (chain_Get_error_means_empty _ _ _ H).
Defined.

Lemma chain_Get_inversion_witness :
  Get (storeWithFallbacks_Store {| stores := [B0; B2; B3] |}) registry []
  = Ok (alice, None) ["B0"; "B2"]
  /\ ((@None error = None /\ alice = EmptyCredential
       /\ misses registry [B0; B2; B3] [] ["B0"; "B2"])
      \/ exists pre s post w1,
          [B0; B2; B3] = pre ++ s :: post
          /\ misses registry pre [] w1
          /\ ((@None error = None /\ alice <> EmptyCredential
               /\ Get s registry w1 = Ok (alice, None) ["B0"; "B2"])
              \/ (exists c e, None = Some e /\ alice = EmptyCredential
                              /\ Get s registry w1
                                 = Ok (c, Some e) ["B0"; "B2"]))).
Proof.
  assert (H : Get (storeWithFallbacks_Store {| stores := [B0; B2; B3] |})
                  registry []
              = Ok (alice, None) ["B0"; "B2"]) by reflexivity.
  split; [exact H|].
  exact (chain_Get_inversion [B0; B2; B3] registry [] H).
Defined.

Lemma chain_Get_no_panic_witness :
  Forall (fun s : Store (list string) =>
            forall a' w', panics (Get s a' w') = false) [B0; B1_down]
  /\ forall w, panics (Get (storeWithFallbacks_Store
                              {| stores := [B0; B1_down] |}) registry w)
               = false.
Proof.
  assert (H : Forall (fun s : Store (list string) =>
                        forall a' w', panics (Get s a' w') = false)
                     [B0; B1_down])
    by (repeat constructor).
  split; [exact H|].
  exact (chain_Get_no_panic registry H).
Defined.

Lemma chain_Delete_then_Get_witness :
  Delete (storeWithFallbacks_Store
            {| stores := B1_empty :: [B0] ++ B2 :: [B3] |}) registry []
  = Ok None ["B1"]
  /\ misses registry (B1_empty :: [B0]) ["B1"] ["B1"; "B1"; "B0"]
  /\ Get B2 registry ["B1"; "B1"; "B0"]
     = Ok (alice, None) ["B1"; "B1"; "B0"; "B2"]
  /\ alice <> EmptyCredential
  /\ Delete B1_empty registry [] = Ok None ["B1"]
  /\ Get (storeWithFallbacks_Store
            {| stores := B1_empty :: [B0] ++ B2 :: [B3] |}) registry ["B1"]
     = Ok (alice, None) ["B1"; "B1"; "B0"; "B2"].
Proof.
  assert (Hd : Delete (storeWithFallbacks_Store
                         {| stores := B1_empty :: [B0] ++ B2 :: [B3] |})
                      registry [] = Ok None ["B1"]) by reflexivity.
  assert (Hm : misses registry (B1_empty :: [B0]) ["B1"] ["B1"; "B1"; "B0"])
    by (econstructor; [reflexivity|];
        econstructor; [reflexivity | constructor]).
  assert (Hne : alice <> EmptyCredential) by discriminate.
  split; [exact Hd|]. split; [exact Hm|]. split; [reflexivity|].
  split; [exact Hne|].
  eapply chain_Delete_then_Get;
    [exact Hd | exact Hm | reflexivity | exact Hne].
Defined.

Lemma Once_stays_fired_witness :
  w_setCredsStoreOnce (with_once true (world blank linux)) = true
  /\ exists rs w',
      run (dynamicStore_Store ds_pass)
          [OpPut registry alice; OpGet registry; OpPut other bob]
          (with_once true (world blank linux)) = Ok rs w'
      /\ w_setCredsStoreOnce w' = true
      /\ setCredsStore_count w'
         = setCredsStore_count (with_once true (world blank linux)).
Proof.
  split; [reflexivity|].
  exact (Once_stays_fired ds_pass
           [OpPut registry alice; OpGet registry; OpPut other bob]
           (with_once true (world blank linux)) eq_refl).
Defined.

(** A failed Put and a Get come first; the Put that follows is the
    one that persists the default "pass". *)
Lemma first_Put_persists_default_witness :
  @Load _ _ flaky "blank.json" = inl blank
  /\ @IsAuthConfigured _ _ flaky blank = false
  /\ @getDefaultHelperSuffix _ _ flaky linux <> EmptyString
  /\ @NewStore _ _ flaky "blank.json" (opts false) linux
     = inl (ds_pass, world blank linux)
  /\ Put (@dynamicStore_Store _ _ flaky ds_pass) down alice
         (world blank linux)
     = Ok (Some ErrHelper)
          (mkWorld blank linux false [CallNative "pass" MPut down])
  /\ @no_write_yet _ _ flaky ds_pass (world blank linux) after_failed_Put
  /\ Put (@getStore _ _ flaky ds_pass registry after_failed_Put)
         registry alice after_failed_Put
     = Ok None
          (with_helpers
             (mkPlatform [("pass/registry.example.com", alice)] [] "pass")
             (record_call (CallNative "pass" MPut registry)
                          after_failed_Put))
  /\ setCredsStore_count after_failed_Put = 0
  /\ exists r w2,
      Put (@dynamicStore_Store _ _ flaky ds_pass) registry alice
          after_failed_Put = Ok r w2
      /\ w_calls w2
         = [CallNative "pass" MPut down; CallNative "pass" MGet registry;
            CallNative "pass" MPut registry; CallSetCredentialsStore "pass"]
      /\ setCredsStore_count w2 = 1
      /\ r = None.
Proof.
  assert (HL : @Load _ _ flaky "blank.json" = inl blank) by reflexivity.
  assert (HA : @IsAuthConfigured _ _ flaky blank = false) by reflexivity.
  assert (Hd : @getDefaultHelperSuffix _ _ flaky linux <> EmptyString)
    by discriminate.
  assert (HN : @NewStore _ _ flaky "blank.json" (opts false) linux
               = inl (ds_pass, world blank linux)) by reflexivity.
  assert (Hq : @no_write_yet _ _ flaky ds_pass (world blank linux)
                 after_failed_Put).
  { eapply (@nwy_Put_failed _ _ flaky ds_pass down alice);
      [reflexivity | reflexivity |].
    eapply (@nwy_Get _ _ flaky ds_pass registry); [reflexivity|].
    apply nwy_start. }
  assert (Hb : Put (@getStore _ _ flaky ds_pass registry after_failed_Put)
                   registry alice after_failed_Put
               = Ok None
                    (with_helpers
                       (mkPlatform [("pass/registry.example.com", alice)]
                                   [] "pass")
                       (record_call (CallNative "pass" MPut registry)
                                    after_failed_Put))) by reflexivity.
  split; [exact HL|]. split; [exact HA|]. split; [exact Hd|].
  split; [exact HN|]. split; [reflexivity|]. split; [exact Hq|].
  split; [exact Hb|].
  destruct (@first_Put_persists_default _ _ flaky "blank.json" (opts false)
              linux blank HL HA Hd) as (ds & w0 & HN' & _ & HP).
  rewrite HN in HN'. injection HN' as <- <-.
  destruct (HP after_failed_Put registry alice _ Hq Hb)
    as (Hc0 & r & w2 & HPut & Hcalls & Hcnt & _ & Hr & _).
  split; [exact Hc0|].
  exists r, w2. split; [exact HPut|]. split; [exact Hcalls|].
  split; [exact Hcnt | exact Hr].
Defined.

(** On a read-only config the Put that persists returns the wrapped
    error, not nil. *)
Lemma dynamicStore_Put_error_witness :
  Put (getStore ds_pass registry (world readonly linux))
      registry alice (world readonly linux)
  = Ok None readonly_after_backend
  /\ w_setCredsStoreOnce (world readonly linux) = false
  /\ detectedCredsStore ds_pass <> EmptyString
  /\ fst (SetCredentialsStore (w_config readonly_after_backend)
                              (detectedCredsStore ds_pass))
     = Some ErrReadOnly
  /\ exists w2,
      Put (dynamicStore_Store ds_pass) registry alice (world readonly linux)
      = Ok (Some (Errorf_w "failed to set credsStore" ErrReadOnly)) w2.
Proof.
  assert (Hb : Put (getStore ds_pass registry (world readonly linux))
                   registry alice (world readonly linux)
               = Ok None readonly_after_backend) by reflexivity.
  assert (Hd : detectedCredsStore ds_pass <> EmptyString) by discriminate.
  split; [exact Hb|]. split; [reflexivity|]. split; [exact Hd|].
  split; [reflexivity|].
  destruct (dynamicStore_Put_error ds_pass registry alice
              (world readonly linux)) as (err & w1 & Hb' & _ & Hfail & _).
  rewrite Hb in Hb'. injection Hb' as <- <-.
  exact (Hfail ErrReadOnly eq_refl eq_refl Hd eq_refl).
Defined.

Lemma routing_stable_under_persist_witness :
  GetCredentialHelper (w_config (world (mkCfg [] "pass" [] true) linux))
                      registry
  = GetCredentialHelper (w_config (world blank linux)) registry
  /\ CredentialsStore (w_config (world blank linux)) = EmptyString
  /\ CredentialsStore (w_config (world (mkCfg [] "pass" [] true) linux))
     = detectedCredsStore ds_pass
  /\ getStore ds_pass registry (world (mkCfg [] "pass" [] true) linux)
     = getStore ds_pass registry (world blank linux).
Proof.
  split; [reflexivity|]. split; [reflexivity|]. split; [reflexivity|].
  exact (routing_stable_under_persist ds_pass registry
           (world blank linux) (world (mkCfg [] "pass" [] true) linux)
           eq_refl eq_refl eq_refl).
Defined.

Lemma NewStore_outcome_witness :
  Load "missing.json" = inr ErrNotExist
  /\ NewStore "missing.json" (opts true) linux = inr ErrNotExist.
Proof.
  assert (HL : Load "missing.json" = inr ErrNotExist) by reflexivity.
  split; [exact HL|].
  exact (proj2 (proj1 (NewStore_outcome "missing.json" (opts true) linux)
                  ErrNotExist) HL).
Defined.

Lemma getDockerConfigPath_outcome_witness :
  @Getenv env_set dockerConfigDirEnv <> EmptyString
  /\ @getDockerConfigPath env_set = inl "/etc/docker/config.json"
  /\ @getDockerConfigPath env_home = inl "/home/alice/.docker/config.json"
  /\ @getDockerConfigPath env_none
     = inr (Errorf_w "failed to get user home directory" ErrNoHome).
Proof.
  assert (Hs : @Getenv env_set dockerConfigDirEnv <> EmptyString)
    by discriminate.
  split; [exact Hs|]. split; [|split].
  - exact (proj1 (@getDockerConfigPath_outcome env_set) Hs).
  - exact (proj1 (proj2 (@getDockerConfigPath_outcome env_home))
             "/home/alice" eq_refl eq_refl).
  - apply (proj2 (@getDockerConfigPath_outcome env_none)).
    split; [reflexivity|]. exists ErrNoHome. split; reflexivity.
Defined.

Lemma NewStoreFromDocker_outcome_witness :
  @Getenv env_set dockerConfigDirEnv <> EmptyString
  /\ @NewStoreFromDocker Cfg Platform externals env_set (opts false) linux
     = NewStore "/etc/docker/config.json" (opts false) linux
  /\ @NewStoreFromDocker Cfg Platform externals env_none (opts false) linux
     = inr (Errorf_w "failed to get user home directory" ErrNoHome).
Proof.
  assert (Hs : @Getenv env_set dockerConfigDirEnv <> EmptyString)
    by discriminate.
  split; [exact Hs|]. split.
  - exact (proj2 (@NewStoreFromDocker_outcome Cfg Platform externals env_set
                    (opts false) linux) Hs).
  - apply (proj1 (@NewStoreFromDocker_outcome Cfg Platform externals env_none
                    (opts false) linux)).
    left. reflexivity.
Defined.


Lemma concurrent_Put_terminates_witness :
  w_setCredsStoreOnce (world blank linux) = false
  /\ forall sched,
      moves ds_pass sched (spawn (world blank linux) two_calls)
      <= 7 * length two_calls.
Proof.
  split; [reflexivity|].
  exact (proj1 (concurrent_Put_terminates ds_pass (world blank linux)
                  two_calls eq_refl)).
Defined.

End MoreInstances.
